(** * psync: synchronising GitLab group membership with Okta dev groups

    A shallow embedding of [cmd/root.go] (the command-line variant, which both
    grants and revokes) together with the properties of its reconciliation
    step.  The other two variants of the program ([psync.go] and the older
    root command) share [Intersection], [Difference] and
    [GetGitlabGroupMembers] verbatim and contain the granting half only.

    Go values are modelled as follows: [int] as [Z] (only compared, never
    computed with), [string] as [string], a slice as a [list], a pointer that
    may be [nil] as an [option], [map[string]bool] as a [gmap string bool].
    Calls to the GitLab API are replies of a gateway acting on an abstract
    world; a run-time panic and the exit performed by [cobra.CheckErr] are
    outcomes of the computation. *)

From Stdlib Require Import ZArith String.
From stdpp Require Import base decidable option list gmap strings.

Open Scope string_scope.
Open Scope list_scope.
Open Scope Z_scope.

(** * Part I: the program *)

(** ** Data model *)

(** [gitlab.GroupMemberSAMLIdentity] *)
Record GroupMemberSAMLIdentity := {
  ExternUID : string;
  Provider : string;
  SAMLProviderID : Z
}.

(** [gitlab.GroupMember], restricted to the fields the program reads.
    [GroupSAMLIdentity] is a pointer in Go; [None] is [nil]. *)
Record GroupMember := {
  ID : Z;
  AccessLevel : Z;
  GroupSAMLIdentity : option GroupMemberSAMLIdentity
}.

(** [gitlab.Group], restricted to its identifier. *)
Record Group := { Group_ID : Z }.

(** [type GitlabMember struct { User *gitlab.GroupMember; SAMLID string }] *)
Record GitlabMember := {
  User : GroupMember;
  SAMLID : string
}.

(** [type OktaGroup struct] *)
Record OktaGroup := {
  OktaGroup_ID : string;
  Name : string;
  Users : list string;
  Deprovisioned : list string
}.

(** [okta.User], restricted to identifier and status. *)
Record OktaUser := {
  Id : string;
  Status : string
}.

#[global] Instance GroupMemberSAMLIdentity_eq_dec : EqDecision GroupMemberSAMLIdentity.
Proof. solve_decision. Defined.
#[global] Instance GroupMember_eq_dec : EqDecision GroupMember.
Proof. solve_decision. Defined.
#[global] Instance GitlabMember_eq_dec : EqDecision GitlabMember.
Proof. solve_decision. Defined.

(** Access levels of the GitLab client library ([gitlab.AccessLevelValue]). *)
Definition GuestPermissions : Z := 10.
Definition ReporterPermissions : Z := 20.
Definition DeveloperPermissions : Z := 30.
Definition MaintainerPermissions : Z := 40.
Definition OwnerPermissions : Z := 50.

(** The federated identifier of an account, when it has one. *)
Definition federatedId (m : GroupMember) : option string :=
  ExternUID <$> GroupSAMLIdentity m.

(** ** The correlator: [Intersection] and [Difference] *)

(** The presence index built by the first loop of both functions:
    [m := make(map[string]bool); for _, item := range l { m[item] = true }]. *)
Definition index (l : list string) : gmap string bool :=
  foldl (λ m item, <[item := true]> m) ∅ l.

(** [func Intersection(a, b []string) (c []string)]: the elements of [b]
    found in the index of [a], appended in the order of [b]. *)
Definition Intersection (a b : list string) : list string :=
  let m := index a in
  foldl (λ c item, match m !! item with
                   | Some _ => c ++ [item]
                   | None => c
                   end) [] b.

(** [func Difference(a, b []string) (c []string)]: the elements of [a] not
    found in the index of [b], appended in the order of [a]. *)
Definition Difference (a b : list string) : list string :=
  let m := index b in
  foldl (λ c item, match m !! item with
                   | Some _ => c
                   | None => c ++ [item]
                   end) [] a.

(** ** Directory groups: the status loop of [GetOktaDevGroups] *)

(** [for _, u := range users { if u.Status == "DEPROVISIONED" ||
    u.Status == "SUSPENDED" { gr.Deprovisioned = append(..) } else
    { gr.Users = append(..) } }], from a group whose two lists are empty. *)
Definition splitByStatus (gr : OktaGroup) (users : list OktaUser) : OktaGroup :=
  foldl (λ gr u,
           if bool_decide (Status u = "DEPROVISIONED" ∨ Status u = "SUSPENDED")
           then {| OktaGroup_ID := OktaGroup_ID gr; Name := Name gr;
                   Users := Users gr;
                   Deprovisioned := Deprovisioned gr ++ [Id u] |}
           else {| OktaGroup_ID := OktaGroup_ID gr; Name := Name gr;
                   Users := Users gr ++ [Id u];
                   Deprovisioned := Deprovisioned gr |})
        gr users.

Definition inactive (u : OktaUser) : Prop :=
  Status u = "DEPROVISIONED" ∨ Status u = "SUSPENDED".

(** ** Identity correlation inside the root command *)

(** [afklUids := make([]string, len(afklMembers))] followed by the loop that
    fills slot [i] when member [i] has an identity record: a slot of a
    member without one keeps Go's zero value, the empty string. *)
Definition afklUidsOf (afklMembers : list GroupMember) : list string :=
  foldl (λ uids im,
           match GroupSAMLIdentity im.2 with
           | Some s => <[im.1 := ExternUID s]> uids
           | None => uids
           end)
        (replicate (length afklMembers) EmptyString)
        (imap (λ i m, (i, m)) afklMembers).

(** The identifier slot of one entitlement account. *)
Definition uidSlot (m : GroupMember) : string :=
  default EmptyString (federatedId m).

(** The double loop that builds [glabgroupUids] and [glabgroupMembers] in
    lockstep: every member of the access group is looked up by account
    identifier among the entitlement accounts that have an identity. *)
Definition correlate (glabgroup afklMembers : list GroupMember)
  : list string * list GitlabMember :=
  foldl (λ acc glm,
           foldl (λ acc v,
                    match GroupSAMLIdentity v with
                    | Some s =>
                        if bool_decide (ID v = ID glm)
                        then (acc.1 ++ [ExternUID s],
                              acc.2 ++ [{| User := glm; SAMLID := ExternUID s |}])
                        else acc
                    | None => acc
                    end)
                 acc afklMembers)
        ([], []) glabgroup.

(** The members paired with one access-group account by the inner loop. *)
Definition matchesOf (afklMembers : list GroupMember) (glm : GroupMember)
  : list GitlabMember :=
  omap (λ v, match GroupSAMLIdentity v with
             | Some s => if bool_decide (ID v = ID glm)
                         then Some {| User := glm; SAMLID := ExternUID s |}
                         else None
             | None => None
             end) afklMembers.

Definition usersToAdd (users : list string)
    (afklMembers glabgroup : list GroupMember) : list string :=
  Difference (Intersection users (afklUidsOf afklMembers))
             (correlate glabgroup afklMembers).1.

Definition usersToRemove (deprovisioned : list string)
    (afklMembers glabgroup : list GroupMember) : list string :=
  Intersection deprovisioned (correlate glabgroup afklMembers).1.

(** The federated identifiers of a list of accounts; an account without
    one contributes nothing. *)
Definition federatedIdsOf (l : list GroupMember) : list string :=
  omap federatedId l.

(** ** Effects: gateway calls, panics and fatal errors *)

(** The two run-time panics the program can raise. *)
Inductive panic := NilDereference | IndexOutOfRange.

(** How a computation ends: normally, by a run-time panic, or through
    [cobra.CheckErr], which prints the error and exits the process. *)
Inductive outcome (A : Type) :=
| Ret (a : A)
| Panic (p : panic)
| Exit (err : string).
Arguments Ret {A} a.
Arguments Panic {A} p.
Arguments Exit {A} err.

(** A membership mutation requested from GitLab, recorded together with the
    account it was issued for.  [Added grID y perm] stands for
    [AddGroupMember(grID, {UserID: &y.ID, AccessLevel: &perm})] and
    [Removed grID member] for [RemoveGroupMember(grID, member.User.ID)]. *)
Inductive Mutation :=
| Added (grID : Z) (y : GroupMember) (perm : Z)
| Removed (grID : Z) (member : GitlabMember).

(** The accounts of the add requests of a log (the add plan carried out)
    and the members of its remove requests (the remove plan carried out). *)
Definition addsOf (log : list Mutation) : list GroupMember :=
  omap (λ c, match c with Added _ y _ => Some y | Removed _ _ => None end) log.

Definition removesOf (log : list Mutation) : list GitlabMember :=
  omap (λ c, match c with Added _ _ _ => None | Removed _ m => Some m end) log.

Section Gateway.
(** The state of the GitLab instance; every call may change it. *)
Context {W : Type}.

(** [*gitlab.Client]: the four API calls the program makes.  A reply is
    either an error ([inl]) or a value ([inr]). *)
Record Client := {
  Groups_ListGroups : string → W → (string + list Group) * W;
  Groups_ListAllGroupMembers : Z → W → (string + list GroupMember) * W;
  GroupMembers_AddGroupMember : Z → Z → Z → W → (string + GroupMember) * W;
  GroupMembers_RemoveGroupMember : Z → Z → W → (string + unit) * W
}.

(** A computation threads the world and the log of mutation requests. *)
Definition M (A : Type) : Type :=
  W * list Mutation → outcome A * (W * list Mutation).

Definition ret {A} (a : A) : M A := λ s, (Ret a, s).

Definition bind {A B} (m : M A) (f : A → M B) : M B :=
  λ s, match m s with
       | (Ret a, s') => f a s'
       | (Panic p, s') => (Panic p, s')
       | (Exit e, s') => (Exit e, s')
       end.

Definition raise {A} (p : panic) : M A := λ s, (Panic p, s).

Definition call {A} (op : W → A * W) : M A :=
  λ s, let '(a, w') := op s.1 in (Ret a, (w', s.2)).

Definition request (c : Mutation) : M unit :=
  λ s, (Ret tt, (s.1, s.2 ++ [c])).

(** [cobra.CheckErr(err)]: a non-nil error ends the process. *)
Definition CheckErr {A} (r : string + A) : M A :=
  match r with
  | inl e => λ s, (Exit e, s)
  | inr a => ret a
  end.

(** [for _, a := range l { f(a) }] *)
Fixpoint forM_ {A} (l : list A) (f : A → M unit) : M unit :=
  match l with
  | [] => ret tt
  | a :: l' => bind (f a) (λ _, forM_ l' f)
  end.

End Gateway.
Arguments Client W : clear implicits.
Arguments M W A : clear implicits.

Notation "'let*' x := m 'in' k" := (bind m (λ x, k))
  (at level 10, x name, m at level 100, k at level 200, only parsing).
Notation "'let*' ' pat := m 'in' k" := (bind m (λ pat, k))
  (at level 10, pat pattern, m at level 100, k at level 200, only parsing).
Notation "m ;;; k" := (bind m (λ _, k))
  (at level 100, k at level 200, only parsing, right associativity).

(** ** The root command *)

Section Program.
Context {W : Type} (clt : Client W).

(** [func GetGitlabGroupMembers(clt, name) (members, id)]: the identifier
    of the first group found and its members below [Owner] level.
    [groups[0]] panics when the search finds nothing. *)
Definition GetGitlabGroupMembers (name : string)
  : M W (list GroupMember * Z) :=
  let* r := call (Groups_ListGroups clt name) in
  let* groups := CheckErr r in
  match groups with
  | [] => raise IndexOutOfRange
  | g0 :: _ =>
      let id := Group_ID g0 in
      let* r := call (Groups_ListAllGroupMembers clt id) in
      let* users := CheckErr r in
      ret (filter (λ u, AccessLevel u < 50) users, id)
  end.

(** The body of the inner loop that grants access (lines 115-124): the
    comparison reads [y.GroupSAMLIdentity.ExternUID] without a nil
    check. *)
Definition addMember (grID : Z) (x : string) (y : GroupMember) : M W unit :=
  let perm := DeveloperPermissions in
  match GroupSAMLIdentity y with
  | None => raise NilDereference
  | Some s =>
      if bool_decide (x = ExternUID s)
      then request (Added grID y perm) ;;;
           let* r := call (GroupMembers_AddGroupMember clt grID (ID y) perm) in
           let* _ := CheckErr r in
           ret tt
      else ret tt
  end.

(** The body of the inner loop that revokes access (lines 135-141). *)
Definition removeMember (grID : Z) (id : string) (member : GitlabMember)
  : M W unit :=
  if bool_decide (id = SAMLID member)
  then request (Removed grID member) ;;;
       let* r := call (GroupMembers_RemoveGroupMember clt grID (ID (User member))) in
       let* _ := CheckErr r in
       ret tt
  else ret tt.

(** The reconciliation of one group pair (lines 88-142 of the loop body):
    from the active and deprovisioned directory identifiers, the
    entitlement accounts and the access-group accounts it issues the add
    requests and then the remove requests.  [afklUids] is computed once
    before the loop in the source; it is the same value in every
    iteration. *)
Definition reconcile (grID : Z) (users deprovisioned : list string)
    (afklMembers glabgroup : list GroupMember) : M W unit :=
  let afklUids := afklUidsOf afklMembers in
  let '(glabgroupUids, glabgroupMembers) := correlate glabgroup afklMembers in
  let oktaUsersInGitlab := Intersection users afklUids in
  let usersToAdd := Difference oktaUsersInGitlab glabgroupUids in
  forM_ usersToAdd (λ x, forM_ afklMembers (addMember grID x)) ;;;
  let usersToRemove := Intersection deprovisioned glabgroupUids in
  forM_ usersToRemove (λ id, forM_ glabgroupMembers (removeMember grID id)).

(** One iteration of [for _, g := range oktaGroups]. *)
Definition syncGroup (afklMembers : list GroupMember) (g : OktaGroup)
  : M W unit :=
  let* '(glabgroup, grID) := GetGitlabGroupMembers (Name g) in
  reconcile grID (Users g) (Deprovisioned g) afklMembers glabgroup.

(** The [Run] function of the root command after the clients are set up
    and the directory groups are fetched. *)
Definition Run (oktaGroups : list OktaGroup) : M W unit :=
  let* '(afklMembers, _) := GetGitlabGroupMembers "AFKL-MCP" in
  forM_ oktaGroups (syncGroup afklMembers).

(** The loop body of [Psync] in [psync.go], the cloud-function variant:
    it correlates and grants like the root command (with
    [getSetIntersection], [getSetDifference] and [getGitlabGroupMembers],
    which are [Intersection], [Difference] and [GetGitlabGroupMembers]
    under other names) and never revokes. *)
Definition PsyncGroup (afklMembers : list GroupMember) (g : OktaGroup)
  : M W unit :=
  let* '(glabgroup, grID) := GetGitlabGroupMembers (Name g) in
  let afklUids := afklUidsOf afklMembers in
  let glabgroupUids := (correlate glabgroup afklMembers).1 in
  let intersect := Intersection (Users g) afklUids in
  let diff := Difference intersect glabgroupUids in
  forM_ diff (λ x, forM_ afklMembers (addMember grID x)).

End Program.

(** ** Plans and their application *)

(** What one step of the granting loop appends to the log. *)
Definition addRequests (grID : Z) (x : string) (y : GroupMember)
  : list Mutation :=
  if bool_decide (federatedId y = Some x)
  then [Added grID y DeveloperPermissions] else [].

(** What one step of the revoking loop appends to the log. *)
Definition removeRequests (grID : Z) (id : string) (member : GitlabMember)
  : list Mutation :=
  if bool_decide (id = SAMLID member) then [Removed grID member] else [].

(** [planned] describes the requests the two loops are meant to issue: an
    add request for an entitlement account whose identifier is in
    [usersToAdd], a remove request for a correlated access-group member
    whose identifier is in [usersToRemove]. *)
Definition planned (grID : Z) (users deprovisioned : list string)
    (afklMembers glabgroup : list GroupMember) (c : Mutation) : Prop :=
  match c with
  | Added g y perm =>
      g = grID ∧ perm = DeveloperPermissions ∧ y ∈ afklMembers ∧
      ∃ x, federatedId y = Some x ∧ x ∈ usersToAdd users afklMembers glabgroup
  | Removed g m =>
      g = grID ∧ m ∈ (correlate glabgroup afklMembers).2 ∧
      SAMLID m ∈ usersToRemove deprovisioned afklMembers glabgroup
  end.

(** The account [y] as the access group lists it once granted. *)
Definition granted (y : GroupMember) : GroupMember :=
  {| ID := ID y; AccessLevel := DeveloperPermissions;
     GroupSAMLIdentity := GroupSAMLIdentity y |}.

(** The access group after the plans are applied: the accounts of the add
    plan are inserted at the grant level, then every account named by the
    remove plan is taken out. *)
Definition applyPlans (adds : list GroupMember) (removes : list GitlabMember)
    (glabgroup : list GroupMember) : list GroupMember :=
  filter (λ u, ID u ∉ (λ m, ID (User m)) <$> removes)
         (glabgroup ++ (granted <$> adds)).

(** ** Concrete accounts and gateways for the examples *)

Definition account (id level : Z) (uid : option string) : GroupMember :=
  {| ID := id; AccessLevel := level;
     GroupSAMLIdentity :=
       (λ u, {| ExternUID := u; Provider := "group_saml";
                SAMLProviderID := 1 |}) <$> uid |}.

(** A gateway over a trivial world: every search finds [groups], every
    group lists [members], every mutation is accepted. *)
Definition fixedClient (groups : list Group) (members : list GroupMember)
  : Client unit :=
  {| Groups_ListGroups := λ _ w, (inr groups, w);
     Groups_ListAllGroupMembers := λ _ w, (inr members, w);
     GroupMembers_AddGroupMember :=
       λ _ uid level w, (inr (account uid level None), w);
     GroupMembers_RemoveGroupMember := λ _ _ w, (inr tt, w) |}.

Definition okClient : Client unit := fixedClient [{| Group_ID := 7 |}] [].

(** The accounts of the examples of the specification: [a1] and [a2] are
    entitlement accounts, [b2] is the record under which the access group
    lists the account that the entitlement group lists as [a2] (GitLab
    identifies an account by the same [ID] in every group). *)
Definition a1 : GroupMember := account 1 10 (Some "u1").
Definition a2 : GroupMember := account 2 10 (Some "u2").
Definition b2 : GroupMember := account 2 30 (Some "u2").
(** An entitlement account that was not provisioned through federation. *)
Definition a0 : GroupMember := account 3 10 None.

(** * Part I, continued: the rest of the program *)

(** ** Go's [strings.Split] *)

(** [s] without its prefix [sep], when [sep] is a prefix of [s]. *)
Fixpoint stripPrefix (sep s : string) : option string :=
  match sep, s with
  | EmptyString, _ => Some s
  | String a sep', String c s' =>
      if Ascii.eqb a c then stripPrefix sep' s' else None
  | String _ _, EmptyString => None
  end.

(** [strings.Cut(s, sep)]: the text before and after the leftmost
    occurrence of [sep] in [s], when there is one. *)
Fixpoint Cut (sep s : string) {struct s} : option (string * string) :=
  match stripPrefix sep s with
  | Some after => Some (EmptyString, after)
  | None =>
      match s with
      | EmptyString => None
      | String c s' =>
          match Cut sep s' with
          | Some (before, after) => Some (String c before, after)
          | None => None
          end
      end
  end.

Fixpoint splitFuel (n : nat) (sep s : string) : list string :=
  match n with
  | O => [s]
  | S n' =>
      match Cut sep s with
      | Some (before, after) => before :: splitFuel n' sep after
      | None => [s]
      end
  end.

(** [strings.Split(s, sep)] of Go's standard library for a non-empty
    separator (the program only splits at ["dev_"]): the substrings between
    the occurrences of [sep], which are searched from left to right and do
    not overlap.  Every cut removes at least one character, so the length
    of [s] bounds the number of cuts. *)
Definition Split (s sep : string) : list string :=
  splitFuel (String.length s) sep s.

(** ** The Okta directory *)

(** [okta.GroupProfile] and [okta.Group], restricted to the fields the
    program reads; [Profile] is a pointer in Go. *)
Record GroupProfile := { GroupProfile_Name : string }.

Record okta_Group := {
  Group_Id : string;
  Group_Profile : option GroupProfile
}.

Section Directory.
Context {W : Type}.

(** [*okta.Client]: the two API calls the program makes, with the search
    string of [ListGroups] and the group identifier of [ListGroupUsers]. *)
Record OktaClient := {
  Group_ListGroups : string → W → (string + list okta_Group) * W;
  Group_ListGroupUsers : string → W → (string + list OktaUser) * W
}.

Context (ctl : OktaClient).

(** The loop of [GetOktaDevGroups] and of [getOktaDevGroups] over the
    groups found; [sort] is the inner loop that files the users of one
    group, the only place where the two functions differ.  The name of a
    group is element 1 of its profile name split at ["dev_"]. *)
Fixpoint devGroupsLoop (sort : OktaGroup → list OktaUser → OktaGroup)
    (oktaGroups : list okta_Group) (groups : list OktaGroup)
  : M W (list OktaGroup) :=
  match oktaGroups with
  | [] => ret groups
  | g :: rest =>
      let* profile := match Group_Profile g with
                      | Some p => ret p
                      | None => raise NilDereference
                      end in
      let* name := match Split (GroupProfile_Name profile) "dev_" !! 1%nat with
                   | Some n => ret n
                   | None => raise IndexOutOfRange
                   end in
      let gr := {| OktaGroup_ID := Group_Id g; Name := name;
                   Users := []; Deprovisioned := [] |} in
      let* r := call (Group_ListGroupUsers ctl (Group_Id g)) in
      let* users := CheckErr r in
      devGroupsLoop sort rest (groups ++ [sort gr users])
  end.

(** [func GetOktaDevGroups(ctx, ctl) (groups []OktaGroup, err error)] of
    the root command; the error it returns is always nil, a failing call
    ends the process in [cobra.CheckErr]. *)
Definition GetOktaDevGroups : M W (list OktaGroup) :=
  let* r := call (Group_ListGroups ctl "dev_") in
  let* oktaGroups := CheckErr r in
  devGroupsLoop splitByStatus oktaGroups [].

(** The inner loop of [getOktaDevGroups] in [psync.go]:
    [for _, u := range users { gr.Users = append(gr.Users, u.Id) }]. *)
Definition allUsers (gr : OktaGroup) (users : list OktaUser) : OktaGroup :=
  foldl (λ gr u,
           {| OktaGroup_ID := OktaGroup_ID gr; Name := Name gr;
              Users := Users gr ++ [Id u];
              Deprovisioned := Deprovisioned gr |})
        gr users.

(** [func getOktaDevGroups(ctx, ctl) (groups []oktaGroup, err error)] of
    the cloud function.  Its [oktaGroup] has no [Deprovisioned] field; it
    is represented by an [OktaGroup] whose [Deprovisioned] list stays
    empty and is never read. *)
Definition getOktaDevGroups : M W (list OktaGroup) :=
  let* r := call (Group_ListGroups ctl "dev_") in
  let* oktaGroups := CheckErr r in
  devGroupsLoop allUsers oktaGroups [].
End Directory.
Arguments OktaClient W : clear implicits.

Section Commands.
Context {W : Type} (ctl : OktaClient W) (clt : Client W).

(** The [Run] function of the root command, from the fetch of the
    directory groups on (the secrets and the two clients are set up before
    and are parameters here). *)
Definition rootCmd_Run : M W unit :=
  let* oktaGroups := GetOktaDevGroups ctl in
  Run clt oktaGroups.

(** [func Psync(w, r)] of the cloud function, from the fetch of the
    directory groups on. *)
Definition Psync : M W unit :=
  let* oktaGroups := getOktaDevGroups ctl in
  let* '(afklMembers, _) := GetGitlabGroupMembers clt "AFKL-MCP" in
  forM_ oktaGroups (PsyncGroup clt afklMembers).
End Commands.

(** A directory over a trivial world that finds [groups] and lists
    [users] for every group. *)
Definition fixedDirectory (groups : list okta_Group) (users : list OktaUser)
  : OktaClient unit :=
  {| Group_ListGroups := λ _ w, (inr groups, w);
     Group_ListGroupUsers := λ _ w, (inr users, w) |}.

(** ** The older root command *)

(** The loop of the older root command that fills [afklUids]
    ([afklUids[i] = m.GroupSAMLIdentity.ExternUID], without nil check). *)
Fixpoint fillUids {W} (i : nat) (members : list GroupMember)
    (uids : list string) : M W (list string) :=
  match members with
  | [] => ret uids
  | m :: rest =>
      match GroupSAMLIdentity m with
      | None => raise NilDereference
      | Some id => fillUids (S i) rest (<[i := ExternUID id]> uids)
      end
  end.

Section OlderCommand.
Context {W : Type} (clt : Client W).

(** The loop body of the older root command: correlation and grants as in
    the cloud function, with the identifier list handed in. *)
Definition oldSyncGroup (afklMembers : list GroupMember)
    (afklUids : list string) (g : OktaGroup) : M W unit :=
  let* '(glabgroup, grID) := GetGitlabGroupMembers clt (Name g) in
  let glabgroupUids := (correlate glabgroup afklMembers).1 in
  let intersect := Intersection (Users g) afklUids in
  let diff := Difference intersect glabgroupUids in
  forM_ diff (λ x, forM_ afklMembers (addMember clt grID x)).

(** The [Run] function of the older root command once the directory
    groups are fetched. *)
Definition oldRun (oktaGroups : list OktaGroup) : M W unit :=
  let* '(afklMembers, _) := GetGitlabGroupMembers clt "AFKL-MCP" in
  let* afklUids :=
    fillUids 0 afklMembers
      (replicate (length afklMembers) EmptyString) in
  forM_ oktaGroups (oldSyncGroup afklMembers afklUids).
End OlderCommand.

(** ** Notions used to describe the program *)

(** The plans of a reconciliation, as lists. *)
Definition addPlan (users : list string)
    (afklMembers glabgroup : list GroupMember) : list GroupMember :=
  usersToAdd users afklMembers glabgroup
    ≫= λ x, filter (λ y, federatedId y = Some x) afklMembers.

Definition removePlan (deprovisioned : list string)
    (afklMembers glabgroup : list GroupMember) : list GitlabMember :=
  usersToRemove deprovisioned afklMembers glabgroup
    ≫= λ id, filter (λ m, id = SAMLID m) (correlate glabgroup afklMembers).2.

(** A step either leaves the log as it is, or appends one request and ends
    the process. *)
Definition stopsAtRequest {W A} (s : W * list Mutation)
    (r : outcome A * (W * list Mutation)) : Prop :=
  r.2.2 = s.2 ∨ ∃ c e, r.2.2 = s.2 ++ [c] ∧ r.1 = Exit e.

(** What the run may request for the directory groups [groups]: a grant at
    the developer level to an account below the owner level whose
    identifier is active in one of the groups, or the removal of a member
    below the owner level whose identifier is deprovisioned or suspended
    in one of the groups. *)
Definition sanctioned (groups : list OktaGroup) (c : Mutation) : Prop :=
  match c with
  | Added _ y perm =>
      perm = DeveloperPermissions ∧ AccessLevel y < OwnerPermissions
      ∧ ∃ x gr, federatedId y = Some x ∧ gr ∈ groups ∧ x ∈ Users gr
  | Removed _ m =>
      AccessLevel (User m) < OwnerPermissions
      ∧ ∃ gr, gr ∈ groups ∧ SAMLID m ∈ Deprovisioned gr
  end.

(** A directory group without its deprovisioned members. *)
Definition withoutDeprovisioned (g : OktaGroup) : OktaGroup :=
  {| OktaGroup_ID := OktaGroup_ID g; Name := Name g; Users := Users g;
     Deprovisioned := [] |}.

(** How one directory group found is turned into an [OktaGroup]: by its
    identifier, element 1 of its split name, and a listing of its users
    filed by [sort]. *)
Definition fetchedFrom {W} (ctl : OktaClient W)
    (sort : OktaGroup → list OktaUser → OktaGroup)
    (g : okta_Group) (gr : OktaGroup) : Prop :=
  ∃ p name w users w',
    Group_Profile g = Some p
    ∧ Split (GroupProfile_Name p) "dev_" !! 1%nat = Some name
    ∧ Group_ListGroupUsers ctl (Group_Id g) w = (inr users, w')
    ∧ gr = sort {| OktaGroup_ID := Group_Id g; Name := name;
                   Users := []; Deprovisioned := [] |} users.

(** The replies to [ListGroupUsers] that a fetch of the directory groups
    receives when it goes through the groups [oktaGroups] starting in the
    world [w]: one listing per group, in the order of the loop of
    [GetOktaDevGroups], each requested in the world that the request
    before it left, up to the first group at which the loop ends (a nil
    profile, a name without element 1, a failing request). *)
Fixpoint listingsReceived {W} (ctl : OktaClient W)
    (oktaGroups : list okta_Group) (w : W)
  : list (okta_Group * list OktaUser) :=
  match oktaGroups with
  | [] => []
  | g :: rest =>
      match Group_Profile g with
      | None => []
      | Some p =>
          match Split (GroupProfile_Name p) "dev_" !! 1%nat with
          | None => []
          | Some _ =>
              match Group_ListGroupUsers ctl (Group_Id g) w with
              | (inr users, w') => (g, users) :: listingsReceived ctl rest w'
              | (inl _, _) => []
              end
          end
      end
  end.

(** The listings that a run started in the world [w] receives from the
    directory: those of the groups that its one search for ["dev_"]
    finds, requested in the world that the search left. *)
Definition directoryListings {W} (ctl : OktaClient W) (w : W)
  : list (okta_Group * list OktaUser) :=
  match Group_ListGroups ctl "dev_" w with
  | (inr oktaGroups, w1) => listingsReceived ctl oktaGroups w1
  | (inl _, _) => []
  end.

(** What the root command started in the world [w] may request, in terms
    of the directory: a grant at the developer level to an account below
    the owner level whose identifier is that of a user that a listing
    received in this run shows with an active status, or the removal of a
    member below the owner level whose identifier is that of a user that
    a listing received in this run shows as deprovisioned or suspended. *)
Definition directorySanctioned {W} (ctl : OktaClient W) (w : W)
    (c : Mutation) : Prop :=
  match c with
  | Added _ y perm =>
      perm = DeveloperPermissions ∧ AccessLevel y < OwnerPermissions
      ∧ ∃ l u, l ∈ directoryListings ctl w ∧ u ∈ l.2
               ∧ federatedId y = Some (Id u) ∧ ¬ inactive u
  | Removed _ m =>
      AccessLevel (User m) < OwnerPermissions
      ∧ ∃ l u, l ∈ directoryListings ctl w ∧ u ∈ l.2
               ∧ SAMLID m = Id u ∧ inactive u
  end.

(** What the cloud function started in the world [w] may request: a
    grant at the developer level to an account below the owner level
    whose identifier is that of a user of a listing received in this run,
    whatever the status. *)
Definition listingSanctioned {W} (ctl : OktaClient W) (w : W)
    (c : Mutation) : Prop :=
  match c with
  | Added _ y perm =>
      perm = DeveloperPermissions ∧ AccessLevel y < OwnerPermissions
      ∧ ∃ l u, l ∈ directoryListings ctl w ∧ u ∈ l.2
               ∧ federatedId y = Some (Id u)
  | Removed _ _ => False
  end.

(** ** More gateways and directory data for the examples *)

(** A gateway over a trivial world that rejects every mutation. *)
Definition rejectingClient : Client unit :=
  {| Groups_ListGroups := λ _ w, (inr [{| Group_ID := 7 |}], w);
     Groups_ListAllGroupMembers := λ _ w, (inr [], w);
     GroupMembers_AddGroupMember := λ _ _ _ w, (inl "409 Conflict", w);
     GroupMembers_RemoveGroupMember := λ _ _ w, (inl "404 Not Found", w) |}.

(** A gateway over a trivial world whose search fails. *)
Definition failingClient : Client unit :=
  {| Groups_ListGroups := λ _ w, (inl "401 Unauthorized", w);
     Groups_ListAllGroupMembers := λ _ w, (inr [], w);
     GroupMembers_AddGroupMember :=
       λ _ uid level w, (inr (account uid level None), w);
     GroupMembers_RemoveGroupMember := λ _ _ w, (inr tt, w) |}.

Definition devTeam : okta_Group :=
  {| Group_Id := "00g1";
     Group_Profile := Some {| GroupProfile_Name := "dev_team" |} |}.

Definition teamUsers : list OktaUser :=
  [{| Id := "u1"; Status := "ACTIVE" |};
   {| Id := "u2"; Status := "SUSPENDED" |}].

(** A directory with state: the world is the population of the one group
    it finds, and every listing shows the world as it is. *)
Definition mirrorDirectory : OktaClient (list OktaUser) :=
  {| Group_ListGroups := λ _ w, (inr [devTeam], w);
     Group_ListGroupUsers := λ _ w, (inr w, w) |}.

(** * Part II: properties *)

(** ** Elementary facts about the correlator *)

Lemma index_lookup (l : list string) (x : string) :
  is_Some (index l !! x) ↔ x ∈ l.
Proof.
  unfold index.
  assert (G : ∀ m0 : gmap string bool,
             is_Some (foldl (λ m item, <[item := true]> m) m0 l !! x)
             ↔ is_Some (m0 !! x) ∨ x ∈ l).
  { induction l as [|a l IH]; intros m0; simpl.
    - rewrite elem_of_nil. tauto.
    - rewrite IH, elem_of_cons, lookup_insert.
      case_decide; subst; split; intros; try tauto.
      + left. eauto.
      + destruct H0 as [?|[?|?]]; auto. congruence. }
  rewrite G, lookup_empty. split; [intros [[? ?]|?]; [discriminate|done] | auto].
Qed.

Lemma foldl_keep {A} (P : A → Prop) `{∀ x, Decision (P x)}
    (f : list A → A → list A) (l c0 : list A) :
  (∀ c x, f c x = if decide (P x) then c ++ [x] else c) →
  foldl f c0 l = c0 ++ filter P l.
Proof.
  intros Hf. revert c0. induction l as [|a l IH]; intros c0; simpl.
  - by rewrite app_nil_r.
  - rewrite IH, Hf, filter_cons. destruct (decide (P a)); [|done].
    by rewrite <- app_assoc.
Qed.

Lemma Intersection_filter (a b : list string) :
  Intersection a b = filter (λ x, x ∈ a) b.
Proof.
  unfold Intersection. rewrite (foldl_keep (λ x, x ∈ a)); [done|].
  intros c x. destruct (decide (x ∈ a)) as [Hin|Hin].
  - apply index_lookup in Hin as [v ->]. done.
  - destruct (index a !! x) eqn:E; [|done].
    exfalso. apply Hin, index_lookup. eauto.
Qed.

Lemma Difference_filter (a b : list string) :
  Difference a b = filter (λ x, x ∉ b) a.
Proof.
  unfold Difference. rewrite (foldl_keep (λ x, x ∉ b)); [done|].
  intros c x. destruct (decide (x ∉ b)) as [Hin|Hin].
  - destruct (index b !! x) eqn:E; [|done].
    exfalso. apply Hin, index_lookup. eauto.
  - apply dec_stable in Hin. apply index_lookup in Hin as [v ->]. done.
Qed.

(** ** Directory groups *)

Lemma splitByStatus_lists (gr : OktaGroup) (users : list OktaUser) :
  Users (splitByStatus gr users)
    = Users gr ++ (Id <$> filter (λ u, ¬ inactive u) users)
  ∧ Deprovisioned (splitByStatus gr users)
    = Deprovisioned gr ++ (Id <$> filter inactive users).
Proof.
  unfold splitByStatus. revert gr.
  induction users as [|u users IH]; intros gr; simpl.
  - by rewrite !app_nil_r.
  - rewrite !filter_cons. unfold inactive at 2 4.
    case_bool_decide as Hu.
    + destruct (IH {| OktaGroup_ID := OktaGroup_ID gr; Name := Name gr;
                      Users := Users gr;
                      Deprovisioned := Deprovisioned gr ++ [Id u] |})
        as [-> ->]. simpl.
      destruct (decide (¬ _)) as [Hn|_]; [by destruct Hn|].
      destruct (decide _) as [_|Hn]; [|by destruct Hn].
      by rewrite fmap_cons, <- app_assoc.
    + destruct (IH {| OktaGroup_ID := OktaGroup_ID gr; Name := Name gr;
                      Users := Users gr ++ [Id u];
                      Deprovisioned := Deprovisioned gr |})
        as [-> ->]. simpl.
      destruct (decide (¬ _)) as [_|Hn]; [|by destruct Hn].
      destruct (decide _) as [Hn|_]; [by destruct Hu|].
      by rewrite fmap_cons, <- app_assoc.
Qed.

(** A directory listing that names every user once yields disjoint lists
    of active and of deprovisioned or suspended identifiers. *)
Lemma splitByStatus_disjoint (gr : OktaGroup) (users : list OktaUser) :
  Users gr = [] → Deprovisioned gr = [] → NoDup (Id <$> users) →
  ∀ x, x ∈ Users (splitByStatus gr users) →
       x ∉ Deprovisioned (splitByStatus gr users).
Proof.
  intros E1 E2 Hnd x.
  destruct (splitByStatus_lists gr users) as [-> ->]. rewrite E1, E2. simpl.
  intros (u & -> & [Hu Hin]%list_elem_of_filter)%list_elem_of_fmap
         (v & E & [Hv Hin']%list_elem_of_filter)%list_elem_of_fmap.
  assert (u = v) as ->; [|done].
  clear Hu Hv. induction users as [|a l IH]; [by apply elem_of_nil in Hin|].
  rewrite fmap_cons in Hnd. apply NoDup_cons in Hnd as [Ha Hnd].
  apply elem_of_cons in Hin as [->|Hin];
    apply elem_of_cons in Hin' as [->|Hin']; try done.
  - destruct Ha. rewrite E. apply list_elem_of_fmap. eauto.
  - destruct Ha. rewrite <- E. apply list_elem_of_fmap. eauto.
  - by apply IH.
Qed.

(** ** Identity correlation *)

Lemma afklUidsOf_slots (afklMembers : list GroupMember) :
  afklUidsOf afklMembers = uidSlot <$> afklMembers.
Proof.
  unfold afklUidsOf.
  assert (G : ∀ (l : list GroupMember) (pre : list string),
    foldl (λ uids (im : nat * GroupMember),
             match GroupSAMLIdentity im.2 with
             | Some s => <[im.1 := ExternUID s]> uids
             | None => uids
             end)
          (pre ++ replicate (length l) EmptyString)
          (imap (λ i m, ((length pre + i)%nat, m)) l)
    = pre ++ (uidSlot <$> l)).
  { induction l as [|a l IH]; intros pre; simpl; [done|].
    rewrite Nat.add_0_r.
    rewrite (imap_ext _ (λ i m, ((length (pre ++ [uidSlot a]) + i)%nat, m)))
      by (intros; simpl; rewrite length_app; simpl; f_equal; lia).
    transitivity ((pre ++ [uidSlot a]) ++ (uidSlot <$> l));
      [|by rewrite <- app_assoc].
    rewrite <- IH. f_equal. unfold uidSlot, federatedId.
    destruct (GroupSAMLIdentity a) as [s|]; simpl.
    - rewrite insert_app_r_alt by lia. rewrite Nat.sub_diag. simpl.
      by rewrite <- app_assoc.
    - by rewrite <- app_assoc. }
  apply (G afklMembers []).
Qed.

Lemma elem_of_afklUidsOf (afklMembers : list GroupMember) (x : string) :
  x ∈ afklUidsOf afklMembers ↔
  (∃ y, y ∈ afklMembers ∧ federatedId y = Some x)
  ∨ (x = EmptyString ∧ ∃ y, y ∈ afklMembers ∧ GroupSAMLIdentity y = None).
Proof.
  rewrite afklUidsOf_slots, list_elem_of_fmap. unfold uidSlot, federatedId.
  split.
  - intros (y & -> & Hy). destruct (GroupSAMLIdentity y) eqn:E; simpl.
    + left. exists y. by rewrite E.
    + right. eauto.
  - intros [(y & Hy & E)|(-> & y & Hy & E)]; exists y; split; try done.
    + by rewrite E.
    + by rewrite E.
Qed.

Lemma correlate_members (glabgroup afklMembers : list GroupMember) :
  (correlate glabgroup afklMembers).2
  = glabgroup ≫= matchesOf afklMembers.
Proof.
  unfold correlate.
  set (inner := λ (glm : GroupMember) (acc : list string * list GitlabMember) v,
         match GroupSAMLIdentity v with
         | Some s =>
             if bool_decide (ID v = ID glm)
             then (acc.1 ++ [ExternUID s],
                   acc.2 ++ [{| User := glm; SAMLID := ExternUID s |}])
             else acc
         | None => acc
         end).
  assert (I : ∀ glm l acc,
    (foldl (inner glm) acc l).2 = acc.2 ++ matchesOf l glm).
  { intros glm. induction l as [|v l IH]; intros acc; simpl.
    - by rewrite app_nil_r.
    - rewrite IH. unfold inner, matchesOf. simpl.
      destruct (GroupSAMLIdentity v); [|done].
      destruct (bool_decide (ID v = ID glm)); [|done].
      simpl. by rewrite <- app_assoc. }
  assert (O : ∀ l acc,
    (foldl (λ acc glm, foldl (inner glm) acc afklMembers) acc l).2
    = acc.2 ++ (l ≫= matchesOf afklMembers)).
  { induction l as [|glm l IH]; intros acc; simpl.
    - by rewrite app_nil_r.
    - rewrite IH, I. by rewrite <- app_assoc. }
  apply (O glabgroup ([], [])).
Qed.

Lemma correlate_uids (glabgroup afklMembers : list GroupMember) :
  (correlate glabgroup afklMembers).1
  = SAMLID <$> (correlate glabgroup afklMembers).2.
Proof.
  unfold correlate.
  set (inner := λ (glm : GroupMember) (acc : list string * list GitlabMember) v,
         match GroupSAMLIdentity v with
         | Some s =>
             if bool_decide (ID v = ID glm)
             then (acc.1 ++ [ExternUID s],
                   acc.2 ++ [{| User := glm; SAMLID := ExternUID s |}])
             else acc
         | None => acc
         end).
  assert (I : ∀ glm l (acc : list string * list GitlabMember),
    acc.1 = SAMLID <$> acc.2 →
    (foldl (inner glm) acc l).1 = SAMLID <$> (foldl (inner glm) acc l).2).
  { intros glm. induction l as [|v l IH]; intros acc Hacc; simpl; [done|].
    apply IH. unfold inner.
    destruct (GroupSAMLIdentity v); [|done].
    destruct (bool_decide (ID v = ID glm)); [|done].
    simpl. by rewrite fmap_app, Hacc. }
  assert (O : ∀ l (acc : list string * list GitlabMember),
    acc.1 = SAMLID <$> acc.2 →
    (foldl (λ acc glm, foldl (inner glm) acc afklMembers) acc l).1
    = SAMLID <$> (foldl (λ acc glm, foldl (inner glm) acc afklMembers) acc l).2).
  { induction l as [|glm l IH]; intros acc Hacc; simpl; [done|].
    by apply IH, I. }
  by apply O.
Qed.

Lemma elem_of_matchesOf afklMembers glm (m : GitlabMember) :
  m ∈ matchesOf afklMembers glm ↔
  User m = glm ∧
  ∃ v, v ∈ afklMembers ∧ ID v = ID glm ∧ federatedId v = Some (SAMLID m).
Proof.
  unfold matchesOf, federatedId. rewrite list_elem_of_omap. split.
  - intros (v & Hv & E). destruct (GroupSAMLIdentity v) as [s|] eqn:Es; [|done].
    case_bool_decide; [|done]. injection E as <-. simpl.
    split; [done|]. exists v. by rewrite Es.
  - intros (<- & v & Hv & Hid & E). exists v. split; [done|].
    destruct (GroupSAMLIdentity v) as [s|]; [|done].
    rewrite bool_decide_eq_true_2 by done.
    simpl in E. injection E as E. destruct m; simpl in *. by subst.
Qed.

Lemma elem_of_correlate_members glabgroup afklMembers (m : GitlabMember) :
  m ∈ (correlate glabgroup afklMembers).2 ↔
  User m ∈ glabgroup ∧
  ∃ v, v ∈ afklMembers ∧ ID v = ID (User m)
       ∧ federatedId v = Some (SAMLID m).
Proof.
  rewrite correlate_members, list_elem_of_bind. split.
  - intros (glm & Hm & Hglm). apply elem_of_matchesOf in Hm as [<- Hv]. done.
  - intros [Hu Hv]. exists (User m). split; [|done].
    by apply elem_of_matchesOf.
Qed.

Lemma elem_of_correlate_uids glabgroup afklMembers (x : string) :
  x ∈ (correlate glabgroup afklMembers).1 ↔
  ∃ glm v, glm ∈ glabgroup ∧ v ∈ afklMembers ∧ ID v = ID glm
           ∧ federatedId v = Some x.
Proof.
  rewrite correlate_uids, list_elem_of_fmap. split.
  - intros (m & -> & Hm). apply elem_of_correlate_members in Hm as (? & v & ?).
    exists (User m), v. tauto.
  - intros (glm & v & Hg & Hv & Hid & E).
    exists {| User := glm; SAMLID := x |}. split; [done|].
    apply elem_of_correlate_members. simpl. eauto.
Qed.

Lemma elem_of_usersToAdd users afklMembers glabgroup (x : string) :
  x ∈ usersToAdd users afklMembers glabgroup ↔
  (x ∈ users ∧ x ∈ afklUidsOf afklMembers)
  ∧ x ∉ (correlate glabgroup afklMembers).1.
Proof.
  unfold usersToAdd.
  rewrite Difference_filter, Intersection_filter, !list_elem_of_filter.
  tauto.
Qed.

Lemma elem_of_usersToRemove deprovisioned afklMembers glabgroup (x : string) :
  x ∈ usersToRemove deprovisioned afklMembers glabgroup ↔
  x ∈ deprovisioned ∧ x ∈ (correlate glabgroup afklMembers).1.
Proof.
  unfold usersToRemove. by rewrite Intersection_filter, list_elem_of_filter.
Qed.

Lemma elem_of_federatedIdsOf (l : list GroupMember) (x : string) :
  x ∈ federatedIdsOf l ↔ ∃ y, y ∈ l ∧ federatedId y = Some x.
Proof. unfold federatedIdsOf. by rewrite list_elem_of_omap. Qed.

Lemma federatedIdsOf_afklUidsOf (l : list GroupMember) (x : string) :
  x ∈ federatedIdsOf l → x ∈ afklUidsOf l.
Proof.
  rewrite elem_of_federatedIdsOf, elem_of_afklUidsOf. auto.
Qed.

Lemma elem_of_applyPlans adds removes glabgroup (u : GroupMember) :
  u ∈ applyPlans adds removes glabgroup ↔
  (∀ m, m ∈ removes → ID (User m) ≠ ID u)
  ∧ (u ∈ glabgroup ∨ ∃ y, y ∈ adds ∧ u = granted y).
Proof.
  unfold applyPlans.
  rewrite list_elem_of_filter, elem_of_app, !list_elem_of_fmap.
  split.
  - intros [Hrem Hu]. split.
    + intros m Hm E. apply Hrem. exists m. done.
    + destruct Hu as [Hu|(y & -> & Hy)]; eauto.
  - intros [Hrem Hu]. split.
    + intros (m & E & Hm). by apply (Hrem m).
    + destruct Hu as [Hu|(y & Hy & ->)]; eauto.
Qed.

Lemma filter_all {A} (P : A → Prop) `{∀ x, Decision (P x)} (l : list A) :
  Forall P l → filter P l = l.
Proof.
  induction 1 as [|x l Hx _ IH]; [done|].
  rewrite filter_cons. destruct (decide (P x)); [|done]. by rewrite IH.
Qed.

(** Applying plans to a view below the owner level keeps it below the
    owner level: the members a pass has added are seen by the next fetch. *)
Lemma applyPlans_below_owner adds removes (glabgroup : list GroupMember) :
  Forall (λ u, AccessLevel u < 50) glabgroup →
  filter (λ u, AccessLevel u < 50) (applyPlans adds removes glabgroup)
  = applyPlans adds removes glabgroup.
Proof.
  intros Hall. apply filter_all, Forall_forall. intros u Hu.
  apply elem_of_applyPlans in Hu as [_ [Hu|(y & _ & ->)]]; [|done].
  by eapply Forall_forall in Hall.
Qed.

(** ** Loops of gateway calls *)

Section Loops.
Context {W : Type}.
Implicit Types (s : W * list Mutation) (log : list Mutation).

(** A property of the log kept by every step is kept by a computation
    that sequences them, however it ends. *)
Lemma bind_log_inv {A B} (I : list Mutation → Prop)
    (m : M W A) (f : A → M W B) s :
  I (m s).2.2 → (∀ a s', I s'.2 → I (f a s').2.2) → I (bind m f s).2.2.
Proof.
  intros Hm Hf. unfold bind. destruct (m s) as [[a|p|e] s1]; simpl in *; auto.
Qed.

Lemma forM__log_inv {A} (I : list Mutation → Prop)
    (l : list A) (f : A → M W unit) :
  (∀ a s, a ∈ l → I s.2 → I (f a s).2.2) →
  ∀ s, I s.2 → I (forM_ l f s).2.2.
Proof.
  induction l as [|a l IH]; intros Hf s Hs; simpl; [done|].
  apply bind_log_inv.
  - apply Hf; [apply elem_of_cons; auto | done].
  - intros _ s' Hs'. apply IH; [|done].
    intros b s0 Hb. apply Hf, elem_of_cons. auto.
Qed.

(** A loop that returns has run every iteration to its end, and its log
    is the concatenation of what the iterations appended. *)
Lemma forM__Ret_log {A} (Q : A → Prop) (g : A → list Mutation)
    (l : list A) (f : A → M W unit) :
  (∀ a s s', a ∈ l → f a s = (Ret tt, s') → Q a ∧ s'.2 = s.2 ++ g a) →
  ∀ s s', forM_ l f s = (Ret tt, s') →
          Forall Q l ∧ s'.2 = s.2 ++ (l ≫= g).
Proof.
  induction l as [|a l IH]; intros Hf s s'; simpl.
  - intros [= <-]. by rewrite app_nil_r.
  - unfold bind. destruct (f a s) as [[[]|p|e] s1] eqn:E; try done.
    intros Hl. apply Hf in E as [Ha E]; [|apply elem_of_cons; auto].
    apply IH in Hl as [Hl ->].
    + split; [by constructor|]. by rewrite E, <- app_assoc.
    + intros b s0 s0' Hb. apply Hf, elem_of_cons. auto.
Qed.

(** Conversely, a loop whose iterations all return does return. *)
Lemma forM__Ret_intro {A} (l : list A) (f : A → M W unit) :
  (∀ a s, a ∈ l → ∃ s', f a s = (Ret tt, s')) →
  ∀ s, ∃ s', forM_ l f s = (Ret tt, s').
Proof.
  induction l as [|a l IH]; intros Hf s; simpl; [by eexists|].
  unfold bind. destruct (Hf a s) as [s1 ->]; [apply elem_of_cons; auto|].
  apply IH. intros b s0 Hb. apply Hf, elem_of_cons. auto.
Qed.

(** A loop panics only if one of its iterations does. *)
Lemma forM__no_panic {A} (l : list A) (f : A → M W unit) :
  (∀ a s p, a ∈ l → (f a s).1 ≠ Panic p) →
  ∀ s p, (forM_ l f s).1 ≠ Panic p.
Proof.
  induction l as [|a l IH]; intros Hf s p; simpl; [done|].
  unfold bind. destruct (f a s) as [[[]|q|e] s1] eqn:E; simpl.
  - apply IH. intros b s0 q Hb. apply Hf, elem_of_cons. auto.
  - intros [= ->]. apply (Hf a s p); [apply elem_of_cons; auto|].
    by rewrite E.
  - done.
Qed.

End Loops.

(** ** The requests of one reconciliation *)

Lemma elem_of_addRequests grID x y c :
  c ∈ addRequests grID x y ↔
  c = Added grID y DeveloperPermissions ∧ federatedId y = Some x.
Proof.
  unfold addRequests. case_bool_decide.
  - rewrite list_elem_of_singleton. tauto.
  - rewrite elem_of_nil. tauto.
Qed.

Lemma elem_of_removeRequests grID id m c :
  c ∈ removeRequests grID id m ↔ c = Removed grID m ∧ id = SAMLID m.
Proof.
  unfold removeRequests. case_bool_decide.
  - rewrite list_elem_of_singleton. tauto.
  - rewrite elem_of_nil. tauto.
Qed.

Lemma elem_of_addsOf (log : list Mutation) (y : GroupMember) :
  y ∈ addsOf log ↔ ∃ g perm, Added g y perm ∈ log.
Proof.
  unfold addsOf. rewrite list_elem_of_omap. split.
  - intros ([g y' perm|g m] & Hc & [= ->]). eauto.
  - intros (g & perm & Hc). eauto.
Qed.

Lemma elem_of_removesOf (log : list Mutation) (m : GitlabMember) :
  m ∈ removesOf log ↔ ∃ g, Removed g m ∈ log.
Proof.
  unfold removesOf. rewrite list_elem_of_omap. split.
  - intros ([g y' perm|g m'] & Hc & [= ->]). eauto.
  - intros (g & Hc). eauto.
Qed.

Section Requests.
Context {W : Type} (clt : Client W).
Implicit Types (s : W * list Mutation).

Lemma addMember_log grID x y s :
  (addMember clt grID x y s).2.2 = s.2
  ∨ (addMember clt grID x y s).2.2 = s.2 ++ addRequests grID x y.
Proof.
  unfold addMember, addRequests, federatedId.
  destruct (GroupSAMLIdentity y) as [i|]; simpl; [|by left].
  case_bool_decide as Hx; simpl.
  - right. rewrite bool_decide_eq_true_2 by (by subst).
    unfold bind, request, call; simpl.
    destruct (GroupMembers_AddGroupMember _ _ _ _ _) as [[e|mem] w']; done.
  - by left.
Qed.

Lemma addMember_Ret grID x y s s' :
  addMember clt grID x y s = (Ret tt, s') →
  is_Some (GroupSAMLIdentity y) ∧ s'.2 = s.2 ++ addRequests grID x y.
Proof.
  unfold addMember, addRequests, federatedId.
  destruct (GroupSAMLIdentity y) as [i|]; simpl; [|done].
  intros H. split; [by eexists|]. revert H.
  case_bool_decide as Hx; simpl.
  - rewrite bool_decide_eq_true_2 by (by subst).
    unfold bind, request, call; simpl.
    destruct (GroupMembers_AddGroupMember _ _ _ _ _) as [[e|mem] w']; simpl;
      [done|]. by intros [= <-].
  - rewrite bool_decide_eq_false_2 by congruence.
    intros [= <-]. by rewrite app_nil_r.
Qed.

Lemma removeMember_log grID id member s :
  (removeMember clt grID id member s).2.2 = s.2
  ∨ (removeMember clt grID id member s).2.2
    = s.2 ++ removeRequests grID id member.
Proof.
  unfold removeMember, removeRequests.
  case_bool_decide; simpl; [|by left].
  right. unfold bind, request, call; simpl.
  destruct (GroupMembers_RemoveGroupMember _ _ _ _) as [[e|[]] w']; done.
Qed.

Lemma removeMember_Ret grID id member s s' :
  removeMember clt grID id member s = (Ret tt, s') →
  s'.2 = s.2 ++ removeRequests grID id member.
Proof.
  unfold removeMember, removeRequests.
  case_bool_decide; simpl.
  - unfold bind, request, call; simpl.
    destruct (GroupMembers_RemoveGroupMember _ _ _ _) as [[e|[]] w']; simpl;
      [done|]. by intros [= <-].
  - intros [= <-]. by rewrite app_nil_r.
Qed.

(** [reconcile] written with the two identifier lists it computes. *)
Lemma reconcile_eq grID users deprovisioned afklMembers glabgroup :
  reconcile clt grID users deprovisioned afklMembers glabgroup
  = (forM_ (usersToAdd users afklMembers glabgroup)
           (λ x, forM_ afklMembers (addMember clt grID x)) ;;;
     forM_ (usersToRemove deprovisioned afklMembers glabgroup)
           (λ id, forM_ (correlate glabgroup afklMembers).2
                        (removeMember clt grID id))).
Proof.
  unfold reconcile, usersToAdd, usersToRemove.
  by destruct (correlate glabgroup afklMembers).
Qed.

End Requests.

Section Reconcile.
Context {W : Type} (clt : Client W).
Implicit Types (s : W * list Mutation).

(** Soundness: whatever the outcome, only planned requests are issued. *)
Lemma reconcile_sound grID users deprovisioned afklMembers glabgroup s :
  Forall (planned grID users deprovisioned afklMembers glabgroup) s.2 →
  Forall (planned grID users deprovisioned afklMembers glabgroup)
    (reconcile clt grID users deprovisioned afklMembers glabgroup s).2.2.
Proof.
  intros Hs. rewrite reconcile_eq. apply bind_log_inv.
  - revert s Hs. apply forM__log_inv. intros x s Hx Hs.
    revert s Hs. apply forM__log_inv. intros y s Hy Hs.
    destruct (addMember_log clt grID x y s) as [->| ->]; [done|].
    apply Forall_app. split; [done|].
    apply Forall_forall. intros c [-> E]%elem_of_addRequests.
    simpl. eauto 10.
  - intros _. apply forM__log_inv. intros id s0 Hid Hs0.
    revert s0 Hs0. apply forM__log_inv. intros m s0 Hm Hs0.
    destruct (removeMember_log clt grID id m s0) as [->| ->]; [done|].
    apply Forall_app. split; [done|].
    apply Forall_forall. intros c [-> E]%elem_of_removeRequests.
    simpl. by subst.
Qed.

(** Completeness: a reconciliation that returns has dereferenced no nil
    identity and has issued exactly the planned requests, grants first. *)
Lemma reconcile_Ret grID users deprovisioned afklMembers glabgroup s s' :
  reconcile clt grID users deprovisioned afklMembers glabgroup s
    = (Ret tt, s') →
  Forall (λ _ : string,
            Forall (λ y, is_Some (GroupSAMLIdentity y)) afklMembers)
         (usersToAdd users afklMembers glabgroup)
  ∧ s'.2 = s.2
      ++ (usersToAdd users afklMembers glabgroup
            ≫= λ x, afklMembers ≫= addRequests grID x)
      ++ (usersToRemove deprovisioned afklMembers glabgroup
            ≫= λ id, (correlate glabgroup afklMembers).2
                       ≫= removeRequests grID id).
Proof.
  rewrite reconcile_eq. unfold bind at 1.
  destruct (forM_ (usersToAdd _ _ _) _ s) as [[[]|p|e] s1] eqn:E1; try done.
  intros E2.
  apply (forM__Ret_log
           (λ _, Forall (λ y, is_Some (GroupSAMLIdentity y)) afklMembers)
           (λ x, afklMembers ≫= addRequests grID x)) in E1 as [Hnil E1].
  2:{ intros x s0 s0' _.
      apply (forM__Ret_log (λ y, is_Some (GroupSAMLIdentity y))
               (addRequests grID x)).
      intros y s2 s2' _. apply addMember_Ret. }
  apply (forM__Ret_log (λ _, True)
           (λ id, (correlate glabgroup afklMembers).2
                    ≫= removeRequests grID id)) in E2 as [_ E2].
  2:{ intros id s0 s0' _ H0.
      apply (forM__Ret_log (λ _, True) (removeRequests grID id)) in H0
        as [_ H0]; [done|].
      intros m s2 s2' _ Hm. split; [done|].
      by apply removeMember_Ret in Hm. }
  split; [done|]. by rewrite E2, E1, <- app_assoc.
Qed.

(** On return from an empty log, the log holds every planned request. *)
Lemma reconcile_Ret_planned grID users deprovisioned afklMembers glabgroup
    w s' c :
  reconcile clt grID users deprovisioned afklMembers glabgroup (w, [])
    = (Ret tt, s') →
  c ∈ s'.2 ↔ planned grID users deprovisioned afklMembers glabgroup c.
Proof.
  intros Hr. split.
  - intros Hc.
    pose proof (reconcile_sound grID users deprovisioned afklMembers
                  glabgroup (w, []) (Forall_nil_2 _)) as Hall.
    rewrite Hr in Hall. simpl in Hall.
    by eapply Forall_forall in Hall.
  - apply reconcile_Ret in Hr as [_ ->]. simpl.
    rewrite elem_of_app, !list_elem_of_bind.
    destruct c as [g y perm|g m]; simpl.
    + intros (-> & -> & Hy & x & E & Hx). left. exists x. split; [|done].
      apply list_elem_of_bind. exists y. split; [|done].
      by apply elem_of_addRequests.
    + intros (-> & Hm & Hid). right. exists (SAMLID m). split; [|done].
      apply list_elem_of_bind. exists m. split; [|done].
      by apply elem_of_removeRequests.
Qed.

End Reconcile.

(** ** When a reconciliation panics, when it returns *)

Section Totality.
Context {W : Type} (clt : Client W).
Implicit Types (s : W * list Mutation).

(** The nil identity is the only source of a panic: when every
    entitlement account has an identity record the reconciliation does not
    panic, whatever the gateway replies. *)
Lemma reconcile_no_panic grID users deprovisioned afklMembers glabgroup s p :
  Forall (λ y, is_Some (GroupSAMLIdentity y)) afklMembers →
  (reconcile clt grID users deprovisioned afklMembers glabgroup s).1
    ≠ Panic p.
Proof.
  intros Hall. rewrite reconcile_eq. unfold bind.
  destruct (forM_ (usersToAdd _ _ _) _ s) as [[[]|q|e] s1] eqn:E; simpl.
  - apply forM__no_panic. intros id s0 q _. apply forM__no_panic.
    intros m s2 q' _. unfold removeMember.
    case_bool_decide; [|done]. unfold bind, request, call; simpl.
    by destruct (GroupMembers_RemoveGroupMember _ _ _ _) as [[?|[]] ?].
  - intros [= ->].
    assert (H : (forM_ (usersToAdd users afklMembers glabgroup)
                   (λ x, forM_ afklMembers (addMember clt grID x)) s).1
                ≠ Panic p); [|by rewrite E in H].
    apply forM__no_panic. intros x s0 q' _. apply forM__no_panic.
    intros y s2 q'' Hy. unfold addMember.
    eapply Forall_forall in Hall as [i ->]; [|exact Hy].
    case_bool_decide; [|done]. unfold bind, request, call; simpl.
    by destruct (GroupMembers_AddGroupMember _ _ _ _ _) as [[?|?] ?].
  - done.
Qed.

(** With a gateway that accepts every mutation it returns. *)
Lemma reconcile_returns grID users deprovisioned afklMembers glabgroup s :
  Forall (λ y, is_Some (GroupSAMLIdentity y)) afklMembers →
  (∀ g u l w, ∃ mem w',
      GroupMembers_AddGroupMember clt g u l w = (inr mem, w')) →
  (∀ g u w, ∃ w', GroupMembers_RemoveGroupMember clt g u w = (inr tt, w')) →
  ∃ s', reconcile clt grID users deprovisioned afklMembers glabgroup s
        = (Ret tt, s').
Proof.
  intros Hall Hadd Hrem. rewrite reconcile_eq. unfold bind at 1.
  destruct (forM__Ret_intro (usersToAdd users afklMembers glabgroup)
              (λ x, forM_ afklMembers (addMember clt grID x))) with (s := s)
    as [s1 ->].
  { intros x s0 _. apply forM__Ret_intro. intros y s2 Hy.
    unfold addMember.
    eapply Forall_forall in Hall as [i ->]; [|exact Hy].
    case_bool_decide; [|by eexists]. unfold bind, request, call; simpl.
    destruct (Hadd grID (ID y) DeveloperPermissions s2.1) as (mem & w' & ->).
    by eexists. }
  apply forM__Ret_intro. intros id s0 _. apply forM__Ret_intro.
  intros m s2 _. unfold removeMember.
  case_bool_decide; [|by eexists]. unfold bind, request, call; simpl.
  destruct (Hrem grID (ID (User m)) s2.1) as (w' & ->). by eexists.
Qed.

End Totality.

(** Every request issued by a reconciliation started on an empty log is a
    planned one, whatever the outcome. *)
Lemma reconcile_log_planned {W} (clt : Client W) grID users deprovisioned
    afklMembers glabgroup (w : W) (c : Mutation) :
  c ∈ (reconcile clt grID users deprovisioned afklMembers glabgroup
         (w, [])).2.2 →
  planned grID users deprovisioned afklMembers glabgroup c.
Proof.
  intros Hc.
  pose proof (reconcile_sound clt grID users deprovisioned afklMembers
                glabgroup (w, []) (Forall_nil_2 _)) as Hall.
  by eapply Forall_forall in Hall.
Qed.

(** The plans carried out by a reconciliation that returns. *)
Lemma reconcile_Ret_plans {W} (clt : Client W) grID users deprovisioned
    afklMembers glabgroup (w : W) (s' : W * list Mutation) :
  reconcile clt grID users deprovisioned afklMembers glabgroup (w, [])
    = (Ret tt, s') →
  let accessIds := (correlate glabgroup afklMembers).1 in
  (∀ x, x ∈ federatedIdsOf (addsOf s'.2) ↔
        (x ∈ users ∧ x ∈ federatedIdsOf afklMembers) ∧ x ∉ accessIds)
  ∧ (∀ y, y ∈ addsOf s'.2 ↔
          y ∈ afklMembers ∧
          ∃ x, federatedId y = Some x
               ∧ x ∈ usersToAdd users afklMembers glabgroup)
  ∧ (∀ x, x ∈ SAMLID <$> removesOf s'.2 ↔
          x ∈ deprovisioned ∧ x ∈ accessIds)
  ∧ (∀ m, m ∈ removesOf s'.2 ↔
          m ∈ (correlate glabgroup afklMembers).2 ∧
          SAMLID m ∈ usersToRemove deprovisioned afklMembers glabgroup).
Proof.
  intros Hr accessIds.
  assert (Hadds : ∀ y, y ∈ addsOf s'.2 ↔
            y ∈ afklMembers ∧
            ∃ x, federatedId y = Some x
                 ∧ x ∈ usersToAdd users afklMembers glabgroup).
  { intros y. rewrite elem_of_addsOf. split.
    - intros (g & perm & Hc).
      apply (reconcile_Ret_planned clt _ _ _ _ _ _ _ _ Hr) in Hc.
      simpl in Hc. tauto.
    - intros (Hy & x & E & Hx). exists grID, DeveloperPermissions.
      apply (reconcile_Ret_planned clt _ _ _ _ _ _ _ _ Hr). simpl. eauto 10. }
  assert (Hrems : ∀ m, m ∈ removesOf s'.2 ↔
            m ∈ (correlate glabgroup afklMembers).2 ∧
            SAMLID m ∈ usersToRemove deprovisioned afklMembers glabgroup).
  { intros m. rewrite elem_of_removesOf. split.
    - intros (g & Hc).
      apply (reconcile_Ret_planned clt _ _ _ _ _ _ _ _ Hr) in Hc.
      simpl in Hc. tauto.
    - intros (Hm & Hid). exists grID.
      apply (reconcile_Ret_planned clt _ _ _ _ _ _ _ _ Hr). simpl. eauto. }
  split; [|split; [done|split; [|done]]].
  - intros x. rewrite !elem_of_federatedIdsOf. split.
    + intros (y & (Hy & x' & E' & Hx)%Hadds & E).
      assert (x' = x) as -> by congruence.
      apply elem_of_usersToAdd in Hx. split; [|tauto].
      split; [tauto|]. eauto.
    + intros [[Hu (y & Hy & E)] Hacc]. exists y. split; [|done].
      apply Hadds. split; [done|]. exists x. split; [done|].
      apply elem_of_usersToAdd. split; [|done]. split; [done|].
      apply federatedIdsOf_afklUidsOf, elem_of_federatedIdsOf. eauto.
  - intros x. rewrite list_elem_of_fmap. split.
    + intros (m & -> & (Hm & Hid)%Hrems).
      by apply elem_of_usersToRemove in Hid.
    + intros [Hd Hacc]. unfold accessIds in Hacc.
      pose proof Hacc as Hacc'.
      rewrite correlate_uids, list_elem_of_fmap in Hacc'.
      destruct Hacc' as (m & -> & Hm). exists m. split; [done|].
      apply Hrems. split; [done|]. by apply elem_of_usersToRemove.
Qed.

(** A reconciliation that has identifiers to add and meets an entitlement
    account without identity record does not return. *)
Lemma reconcile_nil_identity_no_return {W} (clt : Client W) grID
    users deprovisioned afklMembers glabgroup (s s' : W * list Mutation) y :
  usersToAdd users afklMembers glabgroup ≠ [] →
  y ∈ afklMembers → GroupSAMLIdentity y = None →
  reconcile clt grID users deprovisioned afklMembers glabgroup s
    ≠ (Ret tt, s').
Proof.
  intros Hne Hy Hnil [Hall _]%reconcile_Ret.
  destruct (usersToAdd users afklMembers glabgroup) as [|x l]; [done|].
  apply Forall_cons in Hall as [Hall _].
  eapply Forall_forall in Hall; [|exact Hy].
  rewrite Hnil in Hall. by destruct Hall.
Qed.

Lemma GetGitlabGroupMembers_Ret {W} (clt : Client W) name
    (s s' : W * list Mutation) members id :
  GetGitlabGroupMembers clt name s = (Ret (members, id), s') →
  ∃ g0 rest w' users,
    Groups_ListGroups clt name s.1 = (inr (g0 :: rest), w')
    ∧ Groups_ListAllGroupMembers clt id w' = (inr users, s'.1)
    ∧ id = Group_ID g0 ∧ s'.2 = s.2
    ∧ members = filter (λ u, AccessLevel u < 50) users.
Proof.
  unfold GetGitlabGroupMembers, bind, call.
  destruct (Groups_ListGroups clt name s.1) as [[e|[|g0 rest]] w'] eqn:E1;
    simpl; try done.
  destruct (Groups_ListAllGroupMembers clt (Group_ID g0) w')
    as [[e|users] w''] eqn:E2; simpl; try done.
  intros [= <- <- <-]. exists g0, rest, w', users. done.
Qed.

(** ** The loop body and the run *)

Lemma GetGitlabGroupMembers_log {W} (clt : Client W) name
    (s : W * list Mutation) :
  (GetGitlabGroupMembers clt name s).2.2 = s.2.
Proof.
  unfold GetGitlabGroupMembers, bind, call.
  destruct (Groups_ListGroups clt name s.1) as [[e|[|g0 rest]] w'];
    simpl; try done.
  by destruct (Groups_ListAllGroupMembers clt (Group_ID g0) w')
    as [[e|users] w''].
Qed.

(** Every request of one iteration of the loop over the directory groups
    is planned for the group found and its members below the owner
    level. *)
Lemma syncGroup_requests {W} (clt : Client W) afklMembers (g : OktaGroup)
    (w : W) (c : Mutation) :
  c ∈ (syncGroup clt afklMembers g (w, [])).2.2 →
  ∃ grID glabgroup,
    Forall (λ u, AccessLevel u < 50) glabgroup
    ∧ planned grID (Users g) (Deprovisioned g) afklMembers glabgroup c.
Proof.
  unfold syncGroup, bind.
  pose proof (GetGitlabGroupMembers_log clt (Name g) (w, [])) as Hlog.
  destruct (GetGitlabGroupMembers clt (Name g) (w, []))
    as [[[glabgroup grID]|p|e] [w1 log1]] eqn:E; simpl in *; subst log1;
    try by intros ?%elem_of_nil.
  intros Hc. exists grID, glabgroup. split.
  - apply GetGitlabGroupMembers_Ret in E as (_ & _ & _ & users & _ & _ & _ & _ & ->).
    apply Forall_forall. by intros u [Hu _]%list_elem_of_filter.
  - by apply reconcile_log_planned in Hc.
Qed.

(** Without the entitlement group the run panics before any request. *)
Lemma Run_without_entitlement_group {W} (clt : Client W) oktaGroups
    (s : W * list Mutation) w' :
  Groups_ListGroups clt "AFKL-MCP" s.1 = (inr [], w') →
  Run clt oktaGroups s = (Panic IndexOutOfRange, (w', s.2)).
Proof.
  intros E. unfold Run, bind at 1.
  unfold GetGitlabGroupMembers, bind, call. by rewrite E.
Qed.

(** ** The plans of one reconciliation *)




(** ** Running the reconciliation again *)

(** C2, as the claim states it, fails: when an identifier is both eligible
    and deprovisioned the first pass adds its account and the second pass,
    run on the membership so obtained, removes it again. *)
Lemma second_pass_not_empty :
  let first := reconcile okClient 7 ["u1"] ["u1"] [a1] [] (tt, []) in
  first = (Ret tt, (tt, [Added 7 a1 DeveloperPermissions]))
  ∧ reconcile okClient 7 ["u1"] ["u1"] [a1]
      (applyPlans (addsOf first.2.2) (removesOf first.2.2) []) (tt, [])
    = (Ret tt, (tt, [Removed 7 {| User := granted a1; SAMLID := "u1" |}])).
Proof. split; reflexivity. Qed.

(** Two entitlement records of one account with different identifiers
    defeat idempotence as well, although the directory lists are
    disjoint. *)
Remark shared_account_defeats_idempotence :
  let afklMembers := [account 1 10 (Some "d"); account 1 10 (Some "u")] in
  let first := reconcile okClient 7 ["u"] ["d"] afklMembers [b2; a1] (tt, []) in
  first.1 = Ret tt
  ∧ (reconcile okClient 7 ["u"] ["d"] afklMembers
       (applyPlans (addsOf first.2.2) (removesOf first.2.2) [b2; a1])
       (tt, [])).2.2
    = [Added 7 (account 1 10 (Some "u")) DeveloperPermissions].
Proof. split; reflexivity. Qed.

(** C2, as the code has it. Suppose no identifier is both eligible and
    deprovisioned, entitlement records with the same account identifier
    carry the same federated identifier, and the first reconciliation
    returns.  Then a second reconciliation, run with the same directory
    lists and entitlement accounts on the access group to which the first
    plans were applied, returns without issuing any request. *)
Theorem second_pass_empty {W} (clt : Client W) (grID : Z)
    (users deprovisioned : list string)
    (afklMembers glabgroup : list GroupMember)
    (w : W) (s' : W * list Mutation) :
  (∀ x, x ∈ users → x ∉ deprovisioned) →
  (∀ v y, v ∈ afklMembers → y ∈ afklMembers → ID v = ID y →
          federatedId v = federatedId y) →
  reconcile clt grID users deprovisioned afklMembers glabgroup (w, [])
    = (Ret tt, s') →
  let glabgroup' :=
    applyPlans (addsOf s'.2) (removesOf s'.2) glabgroup in
  usersToAdd users afklMembers glabgroup' = []
  ∧ usersToRemove deprovisioned afklMembers glabgroup' = []
  ∧ ∀ W' (clt' : Client W') grID' (s : W' * list Mutation),
      reconcile clt' grID' users deprovisioned afklMembers glabgroup' s
      = (Ret tt, s).
Proof.
  intros Hdisj Hfun Hr glabgroup'.
  pose proof (reconcile_Ret_plans clt _ _ _ _ _ _ _ Hr)
    as (_ & Hadds & _ & Hrems).
  pose proof (reconcile_Ret clt _ _ _ _ _ _ _ Hr) as [Hnil _].
  assert (Hadd' : usersToAdd users afklMembers glabgroup' = []).
  { apply elem_of_nil_inv. intros x [[Hu Hx] Hacc']%elem_of_usersToAdd.
    apply Hacc'. clear Hacc'.
    destruct (decide (x ∈ (correlate glabgroup afklMembers).1)) as [Hacc|Hacc].
    - apply elem_of_correlate_uids in Hacc as (glm & v & Hg & Hv & Hid & E).
      apply elem_of_correlate_uids. exists glm, v. repeat split; try done.
      apply elem_of_applyPlans. split; [|by left].
      intros m [Hm Hdep]%Hrems Hidm.
      apply elem_of_usersToRemove in Hdep as [Hdep _].
      apply elem_of_correlate_members in Hm as (_ & v2 & Hv2 & Hid2 & E2).
      assert (Some (SAMLID m) = Some x) as [= Hx']
        by (rewrite <- E2, <- E; apply Hfun; [done|done|congruence]).
      apply (Hdisj x Hu). by rewrite <- Hx'.
    - assert (Hx' : x ∈ usersToAdd users afklMembers glabgroup)
        by by apply elem_of_usersToAdd.
      eapply Forall_forall in Hnil; [|exact Hx'].
      apply elem_of_afklUidsOf in Hx as [(y & Hy & E)|(_ & y & Hy & E)].
      2:{ eapply Forall_forall in Hnil; [|exact Hy].
          rewrite E in Hnil. by destruct Hnil. }
      apply elem_of_correlate_uids. exists (granted y), y.
      repeat split; try done.
      apply elem_of_applyPlans. split.
      + intros m [Hm _]%Hrems Hidm. apply Hacc.
        apply elem_of_correlate_members in Hm as [Hum _].
        apply elem_of_correlate_uids. exists (User m), y. done.
      + right. exists y. split; [|done]. apply Hadds. eauto. }
  assert (Hrem' : usersToRemove deprovisioned afklMembers glabgroup' = []).
  { apply elem_of_nil_inv. intros x [Hdep Hacc']%elem_of_usersToRemove.
    apply elem_of_correlate_uids in Hacc' as (glm & v & Hg & Hv & Hid & E).
    apply elem_of_applyPlans in Hg as [Hkept [Hg|(y & Hy & ->)]].
    - apply (Hkept {| User := glm; SAMLID := x |}); [|done].
      apply Hrems. simpl. split.
      + apply elem_of_correlate_members. simpl. eauto.
      + apply elem_of_usersToRemove. split; [done|].
        apply elem_of_correlate_uids. eauto 10.
    - apply Hadds in Hy as (Hy & x' & E' & [[Hu _] _]%elem_of_usersToAdd).
      assert (Some x = Some x') as [= ->]
        by (rewrite <- E, <- E'; by apply Hfun).
      by apply (Hdisj x'). }
  split; [done|]. split; [done|].
  intros W' clt' grID' s. rewrite reconcile_eq, Hadd', Hrem'. done.
Qed.

Lemma second_pass_empty_witness :
  let glabgroup' :=
    applyPlans [a1] [{| User := b2; SAMLID := "u2" |}] [b2] in
  usersToAdd ["u1"] [a1; a2] glabgroup' = []
  ∧ usersToRemove ["u2"] [a1; a2] glabgroup' = []
  ∧ ∀ W' (clt' : Client W') grID' (s : W' * list Mutation),
      reconcile clt' grID' ["u1"] ["u2"] [a1; a2] glabgroup' s = (Ret tt, s).
Proof.
  refine (second_pass_empty okClient 7 ["u1"] ["u2"] [a1; a2] [b2] tt
            (tt, [Added 7 a1 DeveloperPermissions;
                  Removed 7 {| User := b2; SAMLID := "u2" |}])
            _ _ eq_refl).
  - intros x ->%list_elem_of_singleton [=]%list_elem_of_singleton.
  - intros v y Hv Hy.
    apply elem_of_cons in Hv as [->|Hv];
      [|apply list_elem_of_singleton in Hv as ->];
      (apply elem_of_cons in Hy as [->|Hy];
       [|apply list_elem_of_singleton in Hy as ->]);
      by vm_compute.
Defined.

(** ** Grants and revocations *)

(** C3. Whatever the outcome of a reconciliation, every account it
    requested to add is an entitlement account whose federated identifier
    is in [upstreamEligible]; hence an identifier that is eligible in the
    directory but carried by no entitlement account is the identifier of no
    added account. *)
Theorem no_phantom_grants {W} (clt : Client W) (grID : Z)
    (users deprovisioned : list string)
    (afklMembers glabgroup : list GroupMember) (w : W) :
  let log := (reconcile clt grID users deprovisioned afklMembers glabgroup
                (w, [])).2.2 in
  (∀ y, y ∈ addsOf log →
        ∃ x, federatedId y = Some x ∧ x ∈ users
             ∧ x ∈ federatedIdsOf afklMembers ∧ y ∈ afklMembers)
  ∧ (∀ x, x ∈ users → x ∉ federatedIdsOf afklMembers →
          x ∉ federatedIdsOf (addsOf log)).
Proof.
  intros log.
  assert (H : ∀ y, y ∈ addsOf log →
                ∃ x, federatedId y = Some x ∧ x ∈ users
                     ∧ x ∈ federatedIdsOf afklMembers ∧ y ∈ afklMembers).
  { intros y (g & perm & Hc)%elem_of_addsOf.
    apply reconcile_log_planned in Hc as (_ & _ & Hy & x & E & Hx).
    apply elem_of_usersToAdd in Hx as [[Hu _] _].
    exists x. repeat split; try done.
    apply elem_of_federatedIdsOf. eauto. }
  split; [done|].
  intros x Hu Hx (y & Hy & E)%elem_of_federatedIdsOf.
  apply H in Hy as (x' & E' & _ & Hx' & _).
  apply Hx. congruence.
Qed.

Lemma no_phantom_grants_witness :
  (∀ y, y ∈ [a1] →
        ∃ x, federatedId y = Some x ∧ x ∈ ["u1"; "u9"]
             ∧ x ∈ federatedIdsOf [a1; a2] ∧ y ∈ [a1; a2])
  ∧ (∀ x, x ∈ ["u1"; "u9"] → x ∉ federatedIdsOf [a1; a2] →
          x ∉ federatedIdsOf [a1]).
Proof.
  exact (no_phantom_grants okClient 7 ["u1"; "u9"] ["u2"] [a1; a2] [b2] tt).
Defined.

(** C4. Whatever the outcome of a reconciliation, and whether or not the
    two directory lists overlap, no account requested to add carries the
    federated identifier of a member requested to remove; the two never
    name the same account either. *)
Theorem plans_disjoint {W} (clt : Client W) (grID : Z)
    (users deprovisioned : list string)
    (afklMembers glabgroup : list GroupMember) (w : W) :
  let log := (reconcile clt grID users deprovisioned afklMembers glabgroup
                (w, [])).2.2 in
  (∀ x, x ∈ federatedIdsOf (addsOf log) → x ∉ SAMLID <$> removesOf log)
  ∧ (∀ y m, y ∈ addsOf log → m ∈ removesOf log → ID y ≠ ID (User m)).
Proof.
  intros log. split.
  - intros x (y & (g & perm & Hc)%elem_of_addsOf & E)%elem_of_federatedIdsOf.
    intros (m & -> & (g' & Hc')%elem_of_removesOf)%list_elem_of_fmap.
    apply reconcile_log_planned in Hc as (_ & _ & _ & x & E' & Hx).
    apply reconcile_log_planned in Hc' as (_ & _ & Hid).
    apply elem_of_usersToAdd in Hx as [_ Hx].
    apply elem_of_usersToRemove in Hid as [_ Hid].
    apply Hx. congruence.
  - intros y m (g & perm & Hc)%elem_of_addsOf (g' & Hc')%elem_of_removesOf Hid.
    apply reconcile_log_planned in Hc as (_ & _ & Hy & x & E & Hx).
    apply reconcile_log_planned in Hc' as (_ & Hm & _).
    apply elem_of_usersToAdd in Hx as [_ Hx]. apply Hx.
    apply elem_of_correlate_members in Hm as [Hu _].
    apply elem_of_correlate_uids. exists (User m), y. done.
Qed.

Lemma plans_disjoint_witness :
  (∀ x, x ∈ federatedIdsOf [a1] →
        x ∉ SAMLID <$> [{| User := b2; SAMLID := "u2" |}])
  ∧ (∀ y m, y ∈ [a1] → m ∈ [{| User := b2; SAMLID := "u2" |}] →
            ID y ≠ ID (User m)).
Proof.
  exact (plans_disjoint okClient 7 ["u1"; "u2"] ["u2"; "u1"] [a1; a2] [b2] tt).
Defined.

(** ** Fetched views and the grant level *)

(** C5, as the code has it. The privilege ceiling of a fetched view is the
    owner level 50, not the grant level: every account of a view returned
    by [GetGitlabGroupMembers] is strictly below 50 and every listed
    account below 50 is in the view, accounts at the grant level included;
    accounts at 50 or above are dropped before reconciliation. The level
    every add request assigns is the developer level 30, which lies below
    that ceiling. *)
Theorem fetched_members_below_owner {W} (clt : Client W) (name : string)
    (s s' : W * list Mutation) (members : list GroupMember) (id : Z) :
  GetGitlabGroupMembers clt name s = (Ret (members, id), s') →
  (∃ w' users,
      Groups_ListAllGroupMembers clt id w' = (inr users, s'.1)
      ∧ ∀ u, u ∈ members ↔ u ∈ users ∧ AccessLevel u < OwnerPermissions)
  ∧ Forall (λ u, AccessLevel u < OwnerPermissions) members
  ∧ DeveloperPermissions < OwnerPermissions
  ∧ ∀ grID users deprovisioned afklMembers glabgroup w g y perm,
      Added g y perm
        ∈ (reconcile clt grID users deprovisioned afklMembers glabgroup
             (w, [])).2.2 →
      perm = DeveloperPermissions.
Proof.
  intros (g0 & rest & w' & users & _ & E2 & _ & _ & ->)%GetGitlabGroupMembers_Ret.
  split; [|split; [|split]].
  - exists w', users. split; [done|]. intros u.
    rewrite list_elem_of_filter. unfold OwnerPermissions. tauto.
  - apply Forall_forall. intros u [Hu _]%list_elem_of_filter. done.
  - done.
  - intros grID us deprovisioned afklMembers glabgroup w g y perm Hc.
    pose proof (reconcile_sound clt grID us deprovisioned afklMembers
                  glabgroup (w, []) (Forall_nil_2 _)) as Hall.
    eapply Forall_forall in Hall; [|exact Hc]. simpl in Hall. tauto.
Qed.

Lemma fetched_members_below_owner_witness :
  (∃ w' users,
      Groups_ListAllGroupMembers
        (fixedClient [{| Group_ID := 7 |}] [a1; b2; account 4 50 None]) 7 w'
        = (inr users, tt)
      ∧ ∀ u, u ∈ [a1; b2] ↔ u ∈ users ∧ AccessLevel u < OwnerPermissions)
  ∧ Forall (λ u, AccessLevel u < OwnerPermissions) [a1; b2]
  ∧ DeveloperPermissions < OwnerPermissions
  ∧ ∀ grID users deprovisioned afklMembers glabgroup w g y perm,
      Added g y perm
        ∈ (reconcile
             (fixedClient [{| Group_ID := 7 |}] [a1; b2; account 4 50 None])
             grID users deprovisioned afklMembers glabgroup (w, [])).2.2 →
      perm = DeveloperPermissions.
Proof.
  exact (fetched_members_below_owner
           (fixedClient [{| Group_ID := 7 |}] [a1; b2; account 4 50 None])
           "AFKL-MCP" (tt, []) (tt, []) [a1; b2] 7 eq_refl).
Defined.

(** C5, as the claim states it, fails: an account at the grant level is
    kept in the fetched view. *)
Lemma grant_level_account_fetched :
  GetGitlabGroupMembers
    (fixedClient [{| Group_ID := 7 |}] [b2; account 4 50 None])
    "AFKL-MCP" (tt, [])
  = (Ret ([b2], 7), (tt, []))
  ∧ ¬ AccessLevel b2 < DeveloperPermissions.
Proof. split; [reflexivity|]. by vm_compute. Qed.

(** ** Accounts without a federated identity *)

(** C6, at a failing input. The account [a0] without identity record
    leaves the empty string in its slot of the identifier list, where an
    empty directory identifier finds it; as soon as another account is to
    be added the granting loop panics on [a0] instead of passing over it;
    and an account whose identity record holds the empty identifier is
    added when the directory lists the empty identifier. *)
Theorem missing_identity_not_excluded :
  afklUidsOf [a0; a1] = [EmptyString; "u1"]
  ∧ Intersection [EmptyString] (afklUidsOf [a0; a1]) = [EmptyString]
  ∧ usersToAdd ["u1"] [a0; a1] [] = ["u1"]
  ∧ reconcile okClient 7 ["u1"] [] [a0; a1] [] (tt, [])
    = (Panic NilDereference, (tt, []))
  ∧ reconcile okClient 7 [EmptyString] [] [account 3 10 (Some EmptyString)] []
      (tt, [])
    = (Ret tt, (tt, [Added 7 (account 3 10 (Some EmptyString))
                       DeveloperPermissions])).
Proof. repeat split; reflexivity. Qed.

(** C7, at a failing input. The entitlement group holds [a1], matched by
    the directory identifier ["u1"], and [a0], which has no identity
    record: the granting loop requests the add of [a1] and then panics on
    the nil dereference of [a0]'s identity, in the root command and in the
    cloud function alike. *)
Theorem reconcile_panics_on_nil_identity :
  reconcile okClient 7 ["u1"] [] [a1; a0] [] (tt, [])
  = (Panic NilDereference, (tt, [Added 7 a1 DeveloperPermissions]))
  ∧ PsyncGroup okClient [a1; a0]
      {| OktaGroup_ID := "00g1"; Name := "team"; Users := ["u1"];
         Deprovisioned := [] |} (tt, [])
    = (Panic NilDereference, (tt, [Added 7 a1 DeveloperPermissions])).
Proof. split; reflexivity. Qed.

(** ** Identifiers both eligible and deprovisioned *)

(** C8, as the claim states it, fails: for an identifier in both directory
    lists that holds no access yet, the account is added and nothing is
    removed. *)
Lemma eligible_and_deprovisioned_is_added :
  "u1" ∈ ["u1"] ∧ "u1" ∈ ["u1"; "u2"]
  ∧ reconcile okClient 7 ["u1"] ["u1"; "u2"] [a1; a2] [b2] (tt, [])
    = (Ret tt, (tt, [Added 7 a1 DeveloperPermissions;
                     Removed 7 {| User := b2; SAMLID := "u2" |}]))
  ∧ a1 ∈ addsOf [Added 7 a1 DeveloperPermissions;
                 Removed 7 {| User := b2; SAMLID := "u2" |}]
  ∧ "u1" ∉ SAMLID <$> removesOf [Added 7 a1 DeveloperPermissions;
                                  Removed 7 {| User := b2; SAMLID := "u2" |}].
Proof.
  split; [apply list_elem_of_singleton; done|].
  split; [apply elem_of_cons; auto|].
  split; [reflexivity|].
  split; [apply list_elem_of_singleton; reflexivity|].
  simpl. intros [=]%list_elem_of_singleton.
Qed.

(** C8, as the code has it. For an identifier in both directory lists the
    current access decides.  If it is the identifier of a correlated
    access-group member, no account with it is added and, when the
    reconciliation returns, a member with it is removed.  If it is not, no
    member with it is removed and, when the reconciliation returns and an
    entitlement account carries it, an account with it is added. *)
Theorem overlap_decided_by_access {W} (clt : Client W) (grID : Z)
    (users deprovisioned : list string)
    (afklMembers glabgroup : list GroupMember) (w : W) (x : string) :
  x ∈ users → x ∈ deprovisioned →
  let r := reconcile clt grID users deprovisioned afklMembers glabgroup
             (w, []) in
  let accessIds := (correlate glabgroup afklMembers).1 in
  (x ∈ accessIds →
     (x ∉ federatedIdsOf (addsOf r.2.2))
     ∧ (r.1 = Ret tt → x ∈ SAMLID <$> removesOf r.2.2))
  ∧ (x ∉ accessIds →
     (x ∉ SAMLID <$> removesOf r.2.2)
     ∧ (r.1 = Ret tt → x ∈ federatedIdsOf afklMembers →
        x ∈ federatedIdsOf (addsOf r.2.2))).
Proof.
  intros Hu Hd r accessIds.
  assert (Hret : r.1 = Ret tt → r = (Ret tt, r.2)).
  { destruct r as [o s']. simpl. by intros ->. }
  split; intros Hacc; split.
  - intros (y & (g & perm & Hc)%elem_of_addsOf & E)%elem_of_federatedIdsOf.
    apply reconcile_log_planned in Hc as (_ & _ & _ & x' & E' & Hx).
    apply elem_of_usersToAdd in Hx as [_ Hx]. apply Hx.
    unfold accessIds in Hacc. congruence.
  - intros Hr%Hret.
    apply (reconcile_Ret_plans clt) in Hr as (_ & _ & Hrem & _).
    by apply Hrem.
  - intros (m & -> & (g & Hc)%elem_of_removesOf)%list_elem_of_fmap.
    apply reconcile_log_planned in Hc as (_ & _ & Hid).
    by apply elem_of_usersToRemove in Hid as [_ Hid].
  - intros Hr%Hret Hent.
    apply (reconcile_Ret_plans clt) in Hr as (Hadd & _).
    by apply Hadd.
Qed.

Lemma overlap_decided_by_access_witness :
  let accessIds := (correlate [b2] [a1; a2]).1 in
  ("u2" ∈ accessIds →
     ("u2" ∉ federatedIdsOf [a1])
     ∧ (Ret tt = Ret tt →
        "u2" ∈ SAMLID <$> [{| User := b2; SAMLID := "u2" |}]))
  ∧ ("u2" ∉ accessIds →
     ("u2" ∉ SAMLID <$> [{| User := b2; SAMLID := "u2" |}])
     ∧ (Ret tt = Ret tt → "u2" ∈ federatedIdsOf [a1; a2] →
        "u2" ∈ federatedIdsOf [a1])).
Proof.
  refine (overlap_decided_by_access okClient 7 ["u1"; "u2"] ["u2"]
            [a1; a2] [b2] tt "u2" _ _).
  - apply elem_of_cons. right. apply list_elem_of_singleton. reflexivity.
  - apply list_elem_of_singleton. reflexivity.
Defined.

(** ** Determinism of the correlator *)

(** C9. The correlator is deterministic: equal argument lists give equal
    result lists, order included, for [Intersection] and for [Difference].
    The results are the elements of the second (resp. first) list that pass
    a membership test, in the order of that list; the map used as presence
    index is only looked up, never iterated. *)
Theorem correlator_deterministic (A B A' B' : list string) :
  A = A' → B = B' →
  (Intersection A B = Intersection A' B'
   ∧ Difference A B = Difference A' B')
  ∧ Intersection A B = filter (λ x, x ∈ A) B
  ∧ Difference A B = filter (λ x, x ∉ B) A.
Proof.
  intros -> ->. split; [done|].
  split; [apply Intersection_filter | apply Difference_filter].
Qed.

Lemma correlator_deterministic_witness :
  (Intersection ["u1"; "u2"] ["u3"; "u2"; "u1"]
     = Intersection ["u1"; "u2"] ["u3"; "u2"; "u1"]
   ∧ Difference ["u1"; "u2"] ["u3"; "u2"; "u1"]
     = Difference ["u1"; "u2"] ["u3"; "u2"; "u1"])
  ∧ Intersection ["u1"; "u2"] ["u3"; "u2"; "u1"]
      = filter (λ x, x ∈ ["u1"; "u2"]) ["u3"; "u2"; "u1"]
  ∧ Difference ["u1"; "u2"] ["u3"; "u2"; "u1"]
      = filter (λ x, x ∉ ["u3"; "u2"; "u1"]) ["u1"; "u2"].
Proof.
  exact (correlator_deterministic ["u1"; "u2"] ["u3"; "u2"; "u1"]
           ["u1"; "u2"] ["u3"; "u2"; "u1"] eq_refl eq_refl).
Defined.

(** ** Fetching a group that does not exist *)

(** C10. [GetGitlabGroupMembers] takes the identifier of the first group of
    the search result without checking that there is one: when the search
    succeeds with an empty list the function panics with an index out of
    range, it returns neither an error nor an empty membership; when the
    list is not empty the members listed are those of its first group. *)
Theorem GetGitlabGroupMembers_first_group {W} (clt : Client W)
    (name : string) (s : W * list Mutation) :
  (∀ w', Groups_ListGroups clt name s.1 = (inr [], w') →
         GetGitlabGroupMembers clt name s = (Panic IndexOutOfRange, (w', s.2)))
  ∧ (∀ g0 rest w' users w'',
       Groups_ListGroups clt name s.1 = (inr (g0 :: rest), w') →
       Groups_ListAllGroupMembers clt (Group_ID g0) w' = (inr users, w'') →
       GetGitlabGroupMembers clt name s
       = (Ret (filter (λ u, AccessLevel u < 50) users, Group_ID g0),
          (w'', s.2))).
Proof.
  split.
  - intros w' E. unfold GetGitlabGroupMembers, bind, call. by rewrite E.
  - intros g0 rest w' users w'' E1 E2.
    unfold GetGitlabGroupMembers, bind, call. rewrite E1. simpl.
    by rewrite E2.
Qed.

Lemma GetGitlabGroupMembers_first_group_witness :
  GetGitlabGroupMembers (fixedClient [] []) "dev-team" (tt, [])
    = (Panic IndexOutOfRange, (tt, []))
  ∧ GetGitlabGroupMembers
      (fixedClient [{| Group_ID := 7 |}; {| Group_ID := 8 |}] [a1; a2])
      "dev-team" (tt, [])
    = (Ret ([a1; a2], 7), (tt, [])).
Proof.
  split.
  - exact (proj1 (GetGitlabGroupMembers_first_group (fixedClient [] [])
                    "dev-team" (tt, [])) tt eq_refl).
  - exact (proj2 (GetGitlabGroupMembers_first_group
                    (fixedClient [{| Group_ID := 7 |}; {| Group_ID := 8 |}]
                       [a1; a2])
                    "dev-team" (tt, []))
                 {| Group_ID := 7 |} [{| Group_ID := 8 |}] tt [a1; a2] tt
                 eq_refl eq_refl).
Defined.

(** * Part III: further properties of the program *)

(** ** The correlator as list operations *)

(** X1. Every element of [a], with its repetitions, lands in exactly one of
    [Intersection b a] and [Difference a b]: together the two results are
    a rearrangement of [a]. *)
Theorem Intersection_Difference_partition (a b : list string) :
  Intersection b a ++ Difference a b ≡ₚ a.
Proof.
  rewrite Intersection_filter, Difference_filter.
  apply (filter_app_complement (λ x, x ∈ b)).
Qed.

(** X2. The list that is turned into the presence index matters only as a
    set: reordering it or repeating its elements changes neither result. *)
Theorem index_side_as_set (a a' b : list string) :
  (∀ x, x ∈ a ↔ x ∈ a') →
  Intersection a b = Intersection a' b ∧ Difference b a = Difference b a'.
Proof.
  intros Hset. rewrite !Intersection_filter, !Difference_filter.
  split; apply list_filter_iff; intros x; by rewrite Hset.
Qed.

Lemma index_side_as_set_witness :
  Intersection ["u1"; "u2"; "u1"] ["u3"; "u2"]
    = Intersection ["u2"; "u1"] ["u3"; "u2"]
  ∧ Difference ["u3"; "u2"] ["u1"; "u2"; "u1"]
    = Difference ["u3"; "u2"] ["u2"; "u1"].
Proof.
  refine (index_side_as_set ["u1"; "u2"; "u1"] ["u2"; "u1"] ["u3"; "u2"] _).
  intros x. rewrite !elem_of_cons, !elem_of_nil. tauto.
Defined.

(** X3. Empty and equal arguments: an empty list on either side empties
    [Intersection]; [Difference] of the empty list is empty, removing
    nothing leaves the list as it is, and removing a list from itself
    leaves nothing, while intersecting a list with itself gives it back. *)
Theorem correlator_edge_cases (a : list string) :
  Intersection [] a = [] ∧ Intersection a [] = []
  ∧ Difference [] a = [] ∧ Difference a [] = a
  ∧ Difference a a = [] ∧ Intersection a a = a.
Proof.
  rewrite !Intersection_filter, !Difference_filter. repeat split.
  - apply elem_of_nil_inv. intros x [[]%elem_of_nil _]%list_elem_of_filter.
  - apply filter_all, Forall_forall. intros x _. apply not_elem_of_nil.
  - apply elem_of_nil_inv. by intros x [Hn Hx]%list_elem_of_filter.
  - by apply filter_all, Forall_forall.
Qed.

(** X4. Composition: removing [b] a second time changes nothing, what is
    left after removing [b] has nothing in common with [b], what [a] has in
    common with [b] disappears when [b] is removed, and intersecting with
    the same list a second time changes nothing. *)
Theorem correlator_composition (a b : list string) :
  Difference (Difference a b) b = Difference a b
  ∧ Intersection b (Difference a b) = []
  ∧ Difference (Intersection b a) b = []
  ∧ Intersection a (Intersection a b) = Intersection a b.
Proof.
  rewrite !Intersection_filter, !Difference_filter. repeat split.
  - by apply list_filter_filter_l.
  - apply elem_of_nil_inv.
    by intros x [Hx [Hn _]%list_elem_of_filter]%list_elem_of_filter.
  - apply elem_of_nil_inv.
    by intros x [Hn [Hx _]%list_elem_of_filter]%list_elem_of_filter.
  - by apply list_filter_filter_l.
Qed.

(** X5. Both results keep the order and the repetitions of the list they
    range over: [Intersection a b] is a sublist of [b] and [Difference a b]
    a sublist of [a], so a result repeats an element only if that list
    does. *)
Theorem correlator_sublists (a b : list string) :
  Intersection a b `sublist_of` b
  ∧ Difference a b `sublist_of` a
  ∧ (NoDup b → NoDup (Intersection a b))
  ∧ (NoDup a → NoDup (Difference a b)).
Proof.
  rewrite Intersection_filter, Difference_filter.
  split; [apply sublist_filter|]. split; [apply sublist_filter|].
  split; apply NoDup_filter.
Qed.

Lemma correlator_sublists_witness :
  NoDup (Intersection ["u1"; "u2"] ["u3"; "u2"])
  ∧ NoDup (Difference ["u1"; "u2"] ["u3"; "u2"]).
Proof.
  pose proof (correlator_sublists ["u1"; "u2"] ["u3"; "u2"])
    as (_ & _ & Hi & Hd).
  split; [apply Hi | apply Hd]; by apply (bool_decide_unpack _).
Defined.

(** ** The identifier lists of the root command *)

(** X6. [afklUids] is aligned with the entitlement accounts: it has one
    slot per account, and slot [i] holds the identifier of account [i], or
    the empty string when account [i] has no identity record. *)
Theorem afklUids_aligned (afklMembers : list GroupMember) :
  length (afklUidsOf afklMembers) = length afklMembers
  ∧ ∀ (i : nat) m, afklMembers !! i = Some m →
      afklUidsOf afklMembers !! i
      = Some (match GroupSAMLIdentity m with
              | Some s => ExternUID s
              | None => EmptyString
              end).
Proof.
  rewrite afklUidsOf_slots. split; [apply length_fmap|].
  intros i m Hm. rewrite list_lookup_fmap, Hm. simpl.
  unfold uidSlot, federatedId. by destruct (GroupSAMLIdentity m).
Qed.

Lemma afklUids_aligned_witness :
  afklUidsOf [a1; a0; a2] !! 1%nat = Some EmptyString
  ∧ afklUidsOf [a1; a0; a2] !! 2%nat = Some "u2".
Proof.
  split.
  - exact (proj2 (afklUids_aligned [a1; a0; a2]) 1%nat a0 eq_refl).
  - exact (proj2 (afklUids_aligned [a1; a0; a2]) 2%nat a2 eq_refl).
Defined.

Lemma matchesOf_none afklMembers (glm : GroupMember) :
  (∀ v, v ∈ afklMembers → ID v = ID glm → GroupSAMLIdentity v = None) →
  matchesOf afklMembers glm = [].
Proof.
  intros Hno. apply elem_of_nil_inv. intros m Hm.
  apply elem_of_matchesOf in Hm as (_ & v & Hv & Hid & E).
  unfold federatedId in E. by rewrite (Hno v Hv Hid) in E.
Qed.

Lemma matchesOf_cons v l (glm : GroupMember) :
  matchesOf (v :: l) glm
  = match GroupSAMLIdentity v with
    | Some s => if bool_decide (ID v = ID glm)
                then {| User := glm; SAMLID := ExternUID s |} :: matchesOf l glm
                else matchesOf l glm
    | None => matchesOf l glm
    end.
Proof.
  unfold matchesOf. simpl.
  destruct (GroupSAMLIdentity v); [|done]. by case_bool_decide.
Qed.

Lemma matchesOf_at_most_one afklMembers (glm : GroupMember) :
  NoDup (ID <$> afklMembers) →
  matchesOf afklMembers glm = []
  ∨ ∃ s, matchesOf afklMembers glm = [{| User := glm; SAMLID := s |}].
Proof.
  induction afklMembers as [|v l IH]; intros Hnd; [by left|].
  rewrite fmap_cons in Hnd. apply NoDup_cons in Hnd as [Hv Hnd].
  rewrite matchesOf_cons.
  destruct (GroupSAMLIdentity v) as [s|]; [|by apply IH].
  case_bool_decide as Hid; [|by apply IH].
  right. exists (ExternUID s). rewrite matchesOf_none; [done|].
  intros v' Hv' Hid'. destruct Hv. rewrite Hid, <- Hid'.
  apply list_elem_of_fmap. eauto.
Qed.

(** X7. The two lists built by the correlation loop stay in lockstep:
    [glabgroupUids] is the list of the [SAMLID]s of [glabgroupMembers].
    When the entitlement accounts have pairwise distinct account
    identifiers, every access-group member is paired at most once, so the
    correlated members follow the access group in order, without
    repetition of a position. *)
Theorem correlate_lockstep (glabgroup afklMembers : list GroupMember) :
  (correlate glabgroup afklMembers).1
    = SAMLID <$> (correlate glabgroup afklMembers).2
  ∧ (NoDup (ID <$> afklMembers) →
     User <$> (correlate glabgroup afklMembers).2 `sublist_of` glabgroup).
Proof.
  split; [apply correlate_uids|].
  intros Hnd. rewrite correlate_members.
  induction glabgroup as [|glm l IH]; [done|].
  rewrite bind_cons, fmap_app.
  destruct (matchesOf_at_most_one afklMembers glm Hnd) as [->|[s ->]]; simpl.
  - by apply sublist_cons.
  - by apply sublist_skip.
Qed.

Lemma correlate_lockstep_witness :
  User <$> (correlate [a0; b2] [a1; a2]).2 `sublist_of` [a0; b2].
Proof.
  apply (proj2 (correlate_lockstep [a0; b2] [a1; a2])).
  by apply (bool_decide_unpack _).
Defined.

(** ** Directory groups by status *)

Lemma splitByStatus_header (gr : OktaGroup) (users : list OktaUser) :
  OktaGroup_ID (splitByStatus gr users) = OktaGroup_ID gr
  ∧ Name (splitByStatus gr users) = Name gr.
Proof.
  unfold splitByStatus. revert gr.
  induction users as [|u users IH]; intros gr; simpl; [done|].
  case_bool_decide; by rewrite (proj1 (IH _)), (proj2 (IH _)).
Qed.

(** X8. The status loop of [GetOktaDevGroups], run on a group whose lists
    are empty, sorts the listed users without losing or inventing any: the
    deprovisioned list holds, in listing order, the users whose status is
    exactly [DEPROVISIONED] or [SUSPENDED], the active list holds all
    others, whatever their status; identifier and name of the group are
    untouched; and when the listing names no user twice, no identifier is
    in both lists. *)
Theorem splitByStatus_sorts (gr : OktaGroup) (users : list OktaUser) :
  Users gr = [] → Deprovisioned gr = [] →
  let r := splitByStatus gr users in
  OktaGroup_ID r = OktaGroup_ID gr ∧ Name r = Name gr
  ∧ Users r = Id <$> filter (λ u, ¬ inactive u) users
  ∧ Deprovisioned r = Id <$> filter inactive users
  ∧ Deprovisioned r ++ Users r ≡ₚ Id <$> users
  ∧ (NoDup (Id <$> users) → ∀ x, x ∈ Users r → x ∉ Deprovisioned r).
Proof.
  intros E1 E2 r. unfold r.
  destruct (splitByStatus_header gr users) as [-> ->].
  destruct (splitByStatus_lists gr users) as [EU ED].
  rewrite E1 in EU. rewrite E2 in ED. simpl in EU, ED.
  repeat split; try done.
  - rewrite EU, ED, <- fmap_app. by rewrite (filter_app_complement inactive).
  - intros Hnd. by apply splitByStatus_disjoint.
Qed.

Lemma splitByStatus_sorts_witness :
  let users := [{| Id := "u1"; Status := "ACTIVE" |};
                {| Id := "u2"; Status := "SUSPENDED" |};
                {| Id := "u3"; Status := "PROVISIONED" |};
                {| Id := "u4"; Status := "DEPROVISIONED" |}] in
  let r := splitByStatus
             {| OktaGroup_ID := "00g1"; Name := "team"; Users := [];
                Deprovisioned := [] |} users in
  Users r = ["u1"; "u3"] ∧ Deprovisioned r = ["u2"; "u4"]
  ∧ ∀ x, x ∈ Users r → x ∉ Deprovisioned r.
Proof.
  intros users r.
  pose proof (splitByStatus_sorts
                {| OktaGroup_ID := "00g1"; Name := "team"; Users := [];
                   Deprovisioned := [] |} users eq_refl eq_refl)
    as (_ & _ & HU & HD & _ & Hdisj).
  split; [exact HU|]. split; [exact HD|].
  apply Hdisj. by apply (bool_decide_unpack _).
Defined.

(** ** The requests of a reconciliation, in order *)

(** The accounts added for one identifier, and the members removed for
    one identifier, in the order of the lists the loops range over. *)
Lemma bind_addRequests grID x (afklMembers : list GroupMember) :
  afklMembers ≫= addRequests grID x
  = (λ y, Added grID y DeveloperPermissions)
      <$> filter (λ y, federatedId y = Some x) afklMembers.
Proof.
  induction afklMembers as [|y l IH]; [done|].
  rewrite bind_cons, filter_cons, IH. unfold addRequests.
  case_bool_decide; by destruct (decide _).
Qed.

Lemma bind_removeRequests grID id (members : list GitlabMember) :
  members ≫= removeRequests grID id
  = Removed grID <$> filter (λ m, id = SAMLID m) members.
Proof.
  induction members as [|m l IH]; [done|].
  rewrite bind_cons, filter_cons, IH. unfold removeRequests.
  case_bool_decide; by destruct (decide _).
Qed.

Lemma bind_fmap_requests {A B} (f : B → Mutation) (g : A → list B)
    (l : list A) :
  l ≫= (λ a, f <$> g a) = f <$> (l ≫= g).
Proof.
  induction l as [|a l IH]; [done|]. by rewrite !bind_cons, fmap_app, IH.
Qed.

Lemma addsOf_requests grID perm (adds : list GroupMember)
    (removes : list GitlabMember) :
  addsOf (((λ y, Added grID y perm) <$> adds) ++ (Removed grID <$> removes))
  = adds
  ∧ removesOf (((λ y, Added grID y perm) <$> adds)
               ++ (Removed grID <$> removes))
    = removes.
Proof.
  unfold addsOf, removesOf. rewrite !omap_app. split.
  - induction adds as [|y l IH]; simpl.
    + induction removes as [|m r IHr]; [done|]. simpl. exact IHr.
    + by rewrite <- IH at 2.
  - induction adds as [|y l IH]; simpl.
    + induction removes as [|m r IHr]; [done|]. simpl. by rewrite <- IHr at 2.
    + exact IH.
Qed.

Lemma reconcile_Ret_log {W} (clt : Client W) grID users deprovisioned
    afklMembers glabgroup (s s' : W * list Mutation) :
  reconcile clt grID users deprovisioned afklMembers glabgroup s
    = (Ret tt, s') →
  s'.2 = s.2
         ++ ((λ y, Added grID y DeveloperPermissions)
               <$> addPlan users afklMembers glabgroup)
         ++ (Removed grID <$> removePlan deprovisioned afklMembers glabgroup).
Proof.
  intros [_ ->]%reconcile_Ret. unfold addPlan, removePlan.
  rewrite <- !bind_fmap_requests. do 2 f_equal.
  - apply list_bind_ext; [|done]. intros x. apply bind_addRequests.
  - apply list_bind_ext; [|done]. intros x. apply bind_removeRequests.
Qed.

(** X9. A reconciliation that returns has issued its requests in a fixed
    order: first the grants, for each identifier to add in turn every
    entitlement account carrying it, in entitlement order, all at the
    developer level and for the group found; then the revocations, for each
    identifier to remove in turn every correlated member carrying it. *)
Theorem reconcile_requests_in_order {W} (clt : Client W) (grID : Z)
    (users deprovisioned : list string)
    (afklMembers glabgroup : list GroupMember)
    (w : W) (s' : W * list Mutation) :
  reconcile clt grID users deprovisioned afklMembers glabgroup (w, [])
    = (Ret tt, s') →
  s'.2 = ((λ y, Added grID y DeveloperPermissions)
            <$> (usersToAdd users afklMembers glabgroup
                   ≫= λ x, filter (λ y, federatedId y = Some x) afklMembers))
         ++ (Removed grID
               <$> (usersToRemove deprovisioned afklMembers glabgroup
                      ≫= λ id, filter (λ m, id = SAMLID m)
                                  (correlate glabgroup afklMembers).2))
  ∧ addsOf s'.2 = addPlan users afklMembers glabgroup
  ∧ removesOf s'.2 = removePlan deprovisioned afklMembers glabgroup.
Proof.
  intros Hr%reconcile_Ret_log. simpl in Hr. rewrite Hr.
  split; [done|]. apply addsOf_requests.
Qed.

Lemma reconcile_requests_in_order_witness :
  [Added 7 a1 DeveloperPermissions;
   Removed 7 {| User := b2; SAMLID := "u2" |}]
  = ((λ y, Added 7 y DeveloperPermissions)
       <$> (usersToAdd ["u1"] [a1; a2] [b2]
              ≫= λ x, filter (λ y, federatedId y = Some x) [a1; a2]))
    ++ (Removed 7
          <$> (usersToRemove ["u2"] [a1; a2] [b2]
                 ≫= λ id, filter (λ m, id = SAMLID m)
                             (correlate [b2] [a1; a2]).2)).
Proof.
  exact (proj1 (reconcile_requests_in_order okClient 7 ["u1"] ["u2"]
                  [a1; a2] [b2] tt
                  (tt, [Added 7 a1 DeveloperPermissions;
                        Removed 7 {| User := b2; SAMLID := "u2" |}])
                  eq_refl)).
Defined.

Lemma length_bind_singletons {A B} (f : A → list B) (l : list A) :
  (∀ a, a ∈ l → length (f a) = 1%nat) → length (l ≫= f) = length l.
Proof.
  induction l as [|a l IH]; intros Hf; [done|].
  rewrite bind_cons, length_app, Hf, IH; [done| |apply elem_of_cons; auto].
  intros b Hb. apply Hf, elem_of_cons. auto.
Qed.

Lemma filter_unique {A} (P : A → Prop) `{∀ x, Decision (P x)} (l : list A) a :
  NoDup l → a ∈ l → P a → (∀ b, b ∈ l → P b → b = a) →
  filter P l = [a].
Proof.
  intros Hnd Ha HPa Huniq.
  induction Hnd as [|b l Hb Hnd IH]; [by apply elem_of_nil in Ha|].
  rewrite filter_cons. destruct (decide (P b)) as [HPb|HPb].
  - assert (b = a) as -> by (apply Huniq; [apply elem_of_cons; auto|done]).
    f_equal. apply elem_of_nil_inv. intros c [HPc Hc]%list_elem_of_filter.
    assert (c = a) as -> by (apply Huniq; [apply elem_of_cons; auto|done]).
    done.
  - apply elem_of_cons in Ha as [->|Ha]; [done|].
    apply IH; [done|]. intros c Hc. apply Huniq, elem_of_cons. auto.
Qed.

(** X10. No request is repeated when identifiers are not shared.  If the
    slots of [afklUids] are pairwise distinct (no two entitlement accounts
    carry the same identifier, at most one has none), a reconciliation
    that returns has requested each account at most once, one account per
    identifier to add; if the access-group identifiers are pairwise
    distinct, it has requested each removal at most once. *)
Theorem requests_not_repeated {W} (clt : Client W) (grID : Z)
    (users deprovisioned : list string)
    (afklMembers glabgroup : list GroupMember)
    (w : W) (s' : W * list Mutation) :
  reconcile clt grID users deprovisioned afklMembers glabgroup (w, [])
    = (Ret tt, s') →
  (NoDup (afklUidsOf afklMembers) →
     NoDup (addsOf s'.2)
     ∧ length (addsOf s'.2)
       = length (usersToAdd users afklMembers glabgroup))
  ∧ (NoDup (correlate glabgroup afklMembers).1 →
     NoDup (removesOf s'.2)
     ∧ length (removesOf s'.2)
       = length (usersToRemove deprovisioned afklMembers glabgroup)).
Proof.
  intros Hr. pose proof (reconcile_Ret clt _ _ _ _ _ _ _ Hr) as [Hnil _].
  apply reconcile_Ret_log in Hr. simpl in Hr. rewrite Hr.
  destruct (addsOf_requests grID DeveloperPermissions
              (addPlan users afklMembers glabgroup)
              (removePlan deprovisioned afklMembers glabgroup)) as [-> ->].
  split.
  - intros Hnd.
    assert (Hafkl : NoDup afklMembers)
      by (rewrite afklUidsOf_slots in Hnd; by apply NoDup_fmap_1 in Hnd).
    assert (Hadd : NoDup (usersToAdd users afklMembers glabgroup)).
    { unfold usersToAdd. rewrite Difference_filter, Intersection_filter.
      by do 2 apply NoDup_filter. }
    split.
    + apply NoDup_bind; [|intros; by apply NoDup_filter|done].
      intros x1 x2 y _ _ [E1 _]%list_elem_of_filter [E2 _]%list_elem_of_filter.
      congruence.
    + apply length_bind_singletons. intros x Hx.
      eapply Forall_forall in Hnil; [|exact Hx].
      apply elem_of_usersToAdd in Hx as [[_ Hx] _].
      apply elem_of_afklUidsOf in Hx as [(y & Hy & E)|(_ & y & Hy & E)].
      2:{ eapply Forall_forall in Hnil; [|exact Hy].
          rewrite E in Hnil. by destruct Hnil. }
      rewrite (filter_unique _ _ y); [done..|].
      intros y' Hy' E'. rewrite afklUidsOf_slots in Hnd.
      apply list_elem_of_lookup in Hy as [i Hi].
      apply list_elem_of_lookup in Hy' as [j Hj].
      assert (j = i) as ->; [|congruence].
      eapply NoDup_lookup; [exact Hnd| |].
      * rewrite list_lookup_fmap, Hj. reflexivity.
      * rewrite list_lookup_fmap, Hi. simpl. unfold uidSlot. by rewrite E, E'.
  - intros Hnd.
    assert (Hmem : NoDup (correlate glabgroup afklMembers).2)
      by (rewrite correlate_uids in Hnd; by apply NoDup_fmap_1 in Hnd).
    assert (Hrem : NoDup (usersToRemove deprovisioned afklMembers glabgroup)).
    { unfold usersToRemove. rewrite Intersection_filter.
      by apply NoDup_filter. }
    split.
    + apply NoDup_bind; [|intros; by apply NoDup_filter|done].
      intros x1 x2 m _ _ [E1 _]%list_elem_of_filter [E2 _]%list_elem_of_filter.
      congruence.
    + apply length_bind_singletons. intros id Hid.
      apply elem_of_usersToRemove in Hid as [_ Hid].
      pose proof Hid as Hid'.
      rewrite correlate_uids, list_elem_of_fmap in Hid'.
      destruct Hid' as (m & -> & Hm).
      rewrite (filter_unique _ _ m); [done..|].
      intros m' Hm' E'. rewrite correlate_uids in Hnd.
      apply list_elem_of_lookup in Hm as [i Hi].
      apply list_elem_of_lookup in Hm' as [j Hj].
      assert (j = i) as ->; [|congruence].
      eapply NoDup_lookup; [exact Hnd| |].
      * rewrite list_lookup_fmap, Hj. reflexivity.
      * rewrite list_lookup_fmap, Hi. simpl. by rewrite E'.
Qed.

Lemma requests_not_repeated_witness :
  (NoDup [a1] ∧ length [a1] = length (usersToAdd ["u1"] [a1; a2] [b2]))
  ∧ (NoDup [{| User := b2; SAMLID := "u2" |}]
     ∧ length [{| User := b2; SAMLID := "u2" |}]
       = length (usersToRemove ["u2"] [a1; a2] [b2])).
Proof.
  pose proof (requests_not_repeated okClient 7 ["u1"] ["u2"] [a1; a2] [b2]
                tt
                (tt, [Added 7 a1 DeveloperPermissions;
                      Removed 7 {| User := b2; SAMLID := "u2" |}])
                eq_refl) as [Ha Hr].
  split; [apply Ha | apply Hr]; by apply (bool_decide_unpack _).
Defined.

(** ** What a reconciliation never revokes *)

(** X11. Whatever the outcome of a reconciliation, every member it
    requested to remove is an account of the access group that has an
    entitlement record with the same account identifier, whose federated
    identifier is deprovisioned or suspended in the directory.  An
    access-group member without such an entitlement record is never
    removed, whatever the directory says about it. *)
Theorem no_phantom_revocations {W} (clt : Client W) (grID : Z)
    (users deprovisioned : list string)
    (afklMembers glabgroup : list GroupMember) (w : W) :
  let log := (reconcile clt grID users deprovisioned afklMembers glabgroup
                (w, [])).2.2 in
  (∀ m, m ∈ removesOf log →
        User m ∈ glabgroup ∧ SAMLID m ∈ deprovisioned
        ∧ ∃ v, v ∈ afklMembers ∧ ID v = ID (User m)
               ∧ federatedId v = Some (SAMLID m))
  ∧ (∀ glm,
       (∀ v, v ∈ afklMembers → ID v = ID glm → GroupSAMLIdentity v = None) →
       glm ∉ User <$> removesOf log).
Proof.
  intros log.
  assert (H : ∀ m, m ∈ removesOf log →
                User m ∈ glabgroup ∧ SAMLID m ∈ deprovisioned
                ∧ ∃ v, v ∈ afklMembers ∧ ID v = ID (User m)
                       ∧ federatedId v = Some (SAMLID m)).
  { intros m (g & Hc)%elem_of_removesOf.
    apply reconcile_log_planned in Hc as (_ & Hm & Hid).
    apply elem_of_usersToRemove in Hid as [Hd _].
    apply elem_of_correlate_members in Hm as [Hu Hv]. done. }
  split; [done|].
  intros glm Hno (m & -> & Hm)%list_elem_of_fmap.
  apply H in Hm as (_ & _ & v & Hv & Hid & E).
  unfold federatedId in E. by rewrite (Hno v Hv Hid) in E.
Qed.

Lemma no_phantom_revocations_witness :
  account 9 30 (Some "u2")
    ∉ User <$> removesOf (reconcile okClient 7 [] ["u2"] [a1; a2]
                            [account 9 30 (Some "u2"); b2] (tt, [])).2.2.
Proof.
  apply (proj2 (no_phantom_revocations okClient 7 [] ["u2"] [a1; a2]
                  [account 9 30 (Some "u2"); b2] tt)).
  intros v Hv.
  apply elem_of_cons in Hv as [->|Hv];
    [|apply list_elem_of_singleton in Hv as ->]; by vm_compute.
Defined.

(** ** How a reconciliation ends *)

(** A property of outcomes that holds of a normal return and of the
    outcome of every iteration holds of the outcome of the loop. *)
Lemma forM__outcome_inv {W A} (Q : outcome unit → Prop)
    (l : list A) (f : A → M W unit) :
  Q (Ret tt) → (∀ a s, a ∈ l → Q (f a s).1) →
  ∀ s, Q (forM_ l f s).1.
Proof.
  intros HQ. induction l as [|a l IH]; intros Hf s; simpl; [done|].
  unfold bind. pose proof (Hf a s (list_elem_of_here _ _)) as Ha.
  destruct (f a s) as [[[]|p|e] s1]; simpl in *; [|done..].
  apply IH. intros b s0 Hb. apply Hf, elem_of_cons. auto.
Qed.

(** With a gateway that accepts every mutation a reconciliation ends by
    returning or by the nil dereference. *)
Lemma reconcile_accepting_outcome {W} (clt : Client W) grID
    users deprovisioned afklMembers glabgroup (s : W * list Mutation) :
  (∀ g u l w, ∃ mem w',
      GroupMembers_AddGroupMember clt g u l w = (inr mem, w')) →
  (∀ g u w, ∃ w', GroupMembers_RemoveGroupMember clt g u w = (inr tt, w')) →
  let o := (reconcile clt grID users deprovisioned afklMembers glabgroup s).1 in
  o = Ret tt ∨ o = Panic NilDereference.
Proof.
  intros Hadd Hrem. rewrite reconcile_eq.
  set (Q := λ o : outcome unit, o = Ret tt ∨ o = Panic NilDereference).
  assert (H1 : ∀ s0, Q (forM_ (usersToAdd users afklMembers glabgroup)
                          (λ x, forM_ afklMembers (addMember clt grID x)) s0).1).
  { apply forM__outcome_inv; [by left|]. intros x s0 _.
    apply forM__outcome_inv; [by left|]. intros y s1 _.
    unfold addMember. destruct (GroupSAMLIdentity y); [|by right].
    case_bool_decide; [|by left]. unfold bind, request, call; simpl.
    destruct (Hadd grID (ID y) DeveloperPermissions s1.1) as (mem & w' & ->).
    by left. }
  assert (H2 : ∀ s0, Q (forM_ (usersToRemove deprovisioned afklMembers glabgroup)
                          (λ id, forM_ (correlate glabgroup afklMembers).2
                                   (removeMember clt grID id)) s0).1).
  { apply forM__outcome_inv; [by left|]. intros id s0 _.
    apply forM__outcome_inv; [by left|]. intros m s1 _.
    unfold removeMember. case_bool_decide; [|by left].
    unfold bind, request, call; simpl.
    destruct (Hrem grID (ID (User m)) s1.1) as (w' & ->). by left. }
  simpl. unfold bind. specialize (H1 s).
  destruct (forM_ (usersToAdd _ _ _) _ s) as [[[]|p|e] s1]; simpl in *.
  - apply H2.
  - done.
  - by destruct H1.
Qed.

(** X12. The exact condition of the panic.  Against any gateway a
    reconciliation does not panic when every entitlement account has an
    identity record, nor when there is no identifier to add.  Against a
    gateway that accepts every mutation it panics (on a nil identity) if
    and only if there is an identifier to add and some entitlement account
    has no identity record, and it returns otherwise. *)
Theorem reconcile_panics_iff {W} (clt : Client W) (grID : Z)
    (users deprovisioned : list string)
    (afklMembers glabgroup : list GroupMember) (s : W * list Mutation) :
  let o := (reconcile clt grID users deprovisioned afklMembers glabgroup s).1 in
  let nilIdentity :=
    usersToAdd users afklMembers glabgroup ≠ []
    ∧ ∃ y, y ∈ afklMembers ∧ GroupSAMLIdentity y = None in
  (¬ nilIdentity → ∀ p, o ≠ Panic p)
  ∧ ((∀ g u l w, ∃ mem w',
        GroupMembers_AddGroupMember clt g u l w = (inr mem, w')) →
     (∀ g u w, ∃ w',
        GroupMembers_RemoveGroupMember clt g u w = (inr tt, w')) →
     (o = Panic NilDereference ↔ nilIdentity)
     ∧ (o = Ret tt ↔ ¬ nilIdentity)).
Proof.
  intros o nilIdentity.
  assert (Hsafe : ¬ nilIdentity → ∀ p, o ≠ Panic p).
  { intros Hno p.
    destruct (decide (usersToAdd users afklMembers glabgroup = [])) as [E|Hne].
    - unfold o. rewrite reconcile_eq, E. simpl. unfold bind, ret. simpl.
      apply forM__no_panic. intros id s0 q _. apply forM__no_panic.
      intros m s1 q' _. unfold removeMember.
      case_bool_decide; [|done]. unfold bind, request, call; simpl.
      by destruct (GroupMembers_RemoveGroupMember _ _ _ _) as [[?|[]] ?].
    - apply reconcile_no_panic. apply Forall_forall. intros y Hy.
      destruct (GroupSAMLIdentity y) eqn:E; [by eexists|].
      destruct Hno. split; [done|]. eauto. }
  split; [done|]. intros Hadd Hrem.
  pose proof (reconcile_accepting_outcome clt grID users deprovisioned
                afklMembers glabgroup s Hadd Hrem) as Hout.
  fold o in Hout.
  assert (Hnil : nilIdentity → o ≠ Ret tt).
  { intros [Hne (y & Hy & E)] Ho. unfold o in Ho.
    destruct (reconcile clt grID users deprovisioned afklMembers glabgroup s)
      as [o' s'] eqn:Er. simpl in Ho. subst o'.
    by eapply reconcile_nil_identity_no_return in Er. }
  assert (Hdec : nilIdentity ∨ ¬ nilIdentity).
  { destruct (decide (usersToAdd users afklMembers glabgroup = [])) as [E|Hne].
    { right. by intros [? _]. }
    destruct (decide (Forall (λ y, is_Some (GroupSAMLIdentity y)) afklMembers))
      as [Hall|Hex].
    - right. intros [_ (y & Hy & E)].
      eapply Forall_forall in Hall; [|exact Hy]. rewrite E in Hall.
      by destruct Hall.
    - left. split; [done|]. apply not_Forall_Exists in Hex; [|apply _].
      apply Exists_exists in Hex as (y & Hy & Hn). exists y. split; [done|].
      simpl in Hn. destruct (GroupSAMLIdentity y); [|done].
      destruct Hn. by eexists. }
  split; split.
  - intros Ho. destruct Hdec as [?|Hno]; [done|]. by apply Hsafe in Ho.
  - intros Hn. destruct Hout as [Ho|Ho]; [|done]. by apply Hnil in Ho.
  - intros Ho Hn. by apply Hnil in Ho.
  - intros Hno. destruct Hout as [Ho|Ho]; [done|]. by apply Hsafe in Ho.
Qed.

Lemma reconcile_panics_iff_witness :
  (reconcile okClient 7 ["u1"] [] [a1; a0] [] (tt, [])).1
    = Panic NilDereference
  ∧ (reconcile okClient 7 ["u9"] ["u2"] [a1; a0; a2] [b2] (tt, [])).1 = Ret tt.
Proof.
  split.
  - apply (proj2 (reconcile_panics_iff okClient 7 ["u1"] [] [a1; a0] []
                    (tt, []))).
    + intros g u l w. by eexists _, _.
    + intros g u w. by eexists.
    + split; [by vm_compute|]. exists a0. split; [|done].
      apply elem_of_cons. right. apply list_elem_of_here.
  - apply (proj2 (reconcile_panics_iff okClient 7 ["u9"] ["u2"] [a1; a0; a2]
                    [b2] (tt, []))).
    + intros g u l w. by eexists _, _.
    + intros g u w. by eexists.
    + intros [Hne _]. by apply Hne.
Defined.

Lemma forM__stopsAtRequest {W A} (l : list A) (f : A → M W unit) :
  (∀ a s, a ∈ l → stopsAtRequest s (f a s)) →
  ∀ s, stopsAtRequest s (forM_ l f s).
Proof.
  induction l as [|a l IH]; intros Hf s; simpl; [by left|].
  unfold bind. pose proof (Hf a s (list_elem_of_here _ _)) as Ha.
  destruct (f a s) as [[[]|p|e] s1] eqn:E; try done.
  destruct Ha as [Ha|(c & e & _ & [=])]. simpl in Ha.
  assert (Hl : stopsAtRequest s1 (forM_ l f s1)).
  { apply IH. intros b s0 Hb. apply Hf, elem_of_cons. auto. }
  unfold stopsAtRequest in *. by rewrite <- Ha.
Qed.

(** X13. A rejected mutation ends the pass at once.  Against a gateway
    that rejects every mutation a reconciliation issues at most one
    request, and when it has issued one it ends through [cobra.CheckErr]:
    no grant or revocation is attempted after a rejected one. *)
Theorem reconcile_stops_at_rejection {W} (clt : Client W) (grID : Z)
    (users deprovisioned : list string)
    (afklMembers glabgroup : list GroupMember) (w : W) :
  (∀ g u l w, ∃ e w',
      GroupMembers_AddGroupMember clt g u l w = (inl e, w')) →
  (∀ g u w, ∃ e w',
      GroupMembers_RemoveGroupMember clt g u w = (inl e, w')) →
  let r := reconcile clt grID users deprovisioned afklMembers glabgroup
             (w, []) in
  r.2.2 = [] ∨ ∃ c e, r.2.2 = [c] ∧ r.1 = Exit e.
Proof.
  intros Hadd Hrem r.
  assert (H : stopsAtRequest (w, []) r); [|exact H].
  unfold r. rewrite reconcile_eq.
  assert (H1 : ∀ s, stopsAtRequest s
                 (forM_ (usersToAdd users afklMembers glabgroup)
                    (λ x, forM_ afklMembers (addMember clt grID x)) s)).
  { apply forM__stopsAtRequest. intros x s _.
    apply forM__stopsAtRequest. intros y s1 _.
    unfold addMember. destruct (GroupSAMLIdentity y); [|by left].
    case_bool_decide; [|by left]. unfold bind, request, call; simpl.
    destruct (Hadd grID (ID y) DeveloperPermissions s1.1) as (e & w' & ->).
    right. by eexists _, _. }
  assert (H2 : ∀ s, stopsAtRequest s
                 (forM_ (usersToRemove deprovisioned afklMembers glabgroup)
                    (λ id, forM_ (correlate glabgroup afklMembers).2
                             (removeMember clt grID id)) s)).
  { apply forM__stopsAtRequest. intros id s _.
    apply forM__stopsAtRequest. intros m s1 _.
    unfold removeMember. case_bool_decide; [|by left].
    unfold bind, request, call; simpl.
    destruct (Hrem grID (ID (User m)) s1.1) as (e & w' & ->).
    right. by eexists _, _. }
  unfold bind. specialize (H1 (w, [])).
  destruct (forM_ (usersToAdd _ _ _) _ (w, [])) as [[[]|p|e] s1] eqn:E;
    try done.
  destruct H1 as [H1|(c & e & _ & [=])].
  specialize (H2 s1). unfold stopsAtRequest in *. simpl in *.
  by rewrite H1 in H2.
Qed.

Lemma reconcile_stops_at_rejection_witness :
  let r := reconcile rejectingClient 7 ["u1"; "u2"] [] [a1; a2] [] (tt, []) in
  r.2.2 = [] ∨ ∃ c e, r.2.2 = [c] ∧ r.1 = Exit e.
Proof.
  apply (reconcile_stops_at_rejection rejectingClient 7 ["u1"; "u2"] []
           [a1; a2] [] tt).
  - intros g u l w. by eexists _, _.
  - intros g u w. by eexists _, _.
Defined.

(** ** The whole run *)

Lemma reconcile_sound_gen {W} (clt : Client W) (P : Mutation → Prop)
    grID users deprovisioned afklMembers glabgroup (s : W * list Mutation) :
  (∀ c, planned grID users deprovisioned afklMembers glabgroup c → P c) →
  Forall P s.2 →
  Forall P (reconcile clt grID users deprovisioned afklMembers glabgroup s).2.2.
Proof.
  intros HP Hs. rewrite reconcile_eq. apply bind_log_inv.
  - revert s Hs. apply forM__log_inv. intros x s Hx Hs.
    revert s Hs. apply forM__log_inv. intros y s Hy Hs.
    destruct (addMember_log clt grID x y s) as [->| ->]; [done|].
    apply Forall_app. split; [done|].
    apply Forall_forall. intros c [-> E]%elem_of_addRequests.
    apply HP. simpl. eauto 10.
  - intros _. apply forM__log_inv. intros id s0 Hid Hs0.
    revert s0 Hs0. apply forM__log_inv. intros m s0 Hm Hs0.
    destruct (removeMember_log clt grID id m s0) as [->| ->]; [done|].
    apply Forall_app. split; [done|].
    apply Forall_forall. intros c [-> E]%elem_of_removeRequests.
    apply HP. simpl. by subst.
Qed.

Lemma Run_log_sanctioned {W} (clt : Client W)
    (oktaGroups : list OktaGroup) (w : W) :
  Forall (sanctioned oktaGroups) (Run clt oktaGroups (w, [])).2.2.
Proof.
  unfold Run, bind at 1.
  pose proof (GetGitlabGroupMembers_log clt "AFKL-MCP" (w, [])) as Hlog.
  destruct (GetGitlabGroupMembers clt "AFKL-MCP" (w, []))
    as [[[afklMembers id]|p|e] [w1 log1]] eqn:E; simpl in *; subst log1;
    try by constructor.
  assert (Hafkl : Forall (λ u, AccessLevel u < 50) afklMembers).
  { apply GetGitlabGroupMembers_Ret in E
      as (_ & _ & _ & us & _ & _ & _ & _ & ->).
    apply Forall_forall. by intros u [Hu _]%list_elem_of_filter. }
  apply forM__log_inv; [|by constructor]. intros g s Hg Hs.
  unfold syncGroup, bind.
  pose proof (GetGitlabGroupMembers_log clt (Name g) s) as Hlog.
  destruct (GetGitlabGroupMembers clt (Name g) s)
    as [[[glabgroup grID]|p|e] s1] eqn:Eg; simpl in *;
    try by rewrite Hlog.
  assert (Hglab : Forall (λ u, AccessLevel u < 50) glabgroup).
  { apply GetGitlabGroupMembers_Ret in Eg
      as (_ & _ & _ & us & _ & _ & _ & _ & ->).
    apply Forall_forall. by intros u [Hu _]%list_elem_of_filter. }
  apply reconcile_sound_gen; [|by rewrite Hlog].
  intros [g' y perm|g' m]; simpl.
  - intros (_ & -> & Hy & x & Ex & [[Hu _] _]%elem_of_usersToAdd).
    split; [done|]. split; [by eapply Forall_forall in Hafkl|]. eauto.
  - intros (_ & [Hu _]%elem_of_correlate_members
              & [Hd _]%elem_of_usersToRemove).
    split; [by eapply Forall_forall in Hglab|]. eauto.
Qed.

(** X14. Whatever the gateway replies and however the run ends, every
    request of the run is sanctioned by the directory groups it was given:
    it grants only the developer level, only to accounts it saw below the
    owner level and whose federated identifier is an active member of one
    of the groups, and it removes only members it saw below the owner
    level whose correlated identifier is deprovisioned or suspended in one
    of the groups.  In particular it never removes an owner. *)
Theorem Run_requests_sanctioned {W} (clt : Client W)
    (oktaGroups : list OktaGroup) (w : W) :
  let log := (Run clt oktaGroups (w, [])).2.2 in
  (∀ grID y perm, Added grID y perm ∈ log →
     perm = DeveloperPermissions ∧ AccessLevel y < OwnerPermissions
     ∧ ∃ x gr, federatedId y = Some x ∧ gr ∈ oktaGroups ∧ x ∈ Users gr)
  ∧ (∀ grID m, Removed grID m ∈ log →
       AccessLevel (User m) < OwnerPermissions
       ∧ ∃ gr, gr ∈ oktaGroups ∧ SAMLID m ∈ Deprovisioned gr).
Proof.
  intros log.
  pose proof (Run_log_sanctioned clt oktaGroups w) as Hall.
  fold log in Hall. split.
  - intros grID y perm Hc. eapply Forall_forall in Hall; [|exact Hc].
    exact Hall.
  - intros grID m Hc. eapply Forall_forall in Hall; [|exact Hc].
    exact Hall.
Qed.

Lemma Run_requests_sanctioned_witness :
  let groups := [{| OktaGroup_ID := "00g1"; Name := "team";
                    Users := ["u1"]; Deprovisioned := ["u2"] |}] in
  AccessLevel b2 < OwnerPermissions
  ∧ ∃ gr, gr ∈ groups ∧ "u2" ∈ Deprovisioned gr.
Proof.
  intros groups.
  refine (proj2 (Run_requests_sanctioned
                   (fixedClient [{| Group_ID := 7 |}] [a1; b2]) groups tt)
            7 {| User := b2; SAMLID := "u2" |} _).
  apply list_elem_of_here.
Defined.

(** X15. The run dereferences no nil identity when the entitlement
    accounts it keeps have identity records: if every account listed for
    the first group found for ["AFKL-MCP"] below the owner level has one,
    the run does not end in a nil-dereference panic, whatever the
    directory groups, the access groups and the replies of the gateway.
    Accounts without identity at the owner level do no harm: they are
    filtered out before they are looked at. *)
Theorem Run_no_nil_dereference {W} (clt : Client W)
    (oktaGroups : list OktaGroup) (s : W * list Mutation) :
  (∀ g0 rest w1 users w2,
      Groups_ListGroups clt "AFKL-MCP" s.1 = (inr (g0 :: rest), w1) →
      Groups_ListAllGroupMembers clt (Group_ID g0) w1 = (inr users, w2) →
      ∀ u, u ∈ users → AccessLevel u < OwnerPermissions →
           is_Some (GroupSAMLIdentity u)) →
  (Run clt oktaGroups s).1 ≠ Panic NilDereference.
Proof.
  intros Hid. unfold Run, bind at 1.
  destruct (GetGitlabGroupMembers clt "AFKL-MCP" s)
    as [[[afklMembers id]|p|e] s1] eqn:E; simpl.
  - assert (Hafkl : Forall (λ y, is_Some (GroupSAMLIdentity y)) afklMembers).
    { apply GetGitlabGroupMembers_Ret in E
        as (g0 & rest & w1 & us & E1 & E2 & -> & _ & ->).
      apply Forall_forall. intros u [Hu Hin]%list_elem_of_filter.
      by eapply Hid. }
    apply (forM__outcome_inv (λ o, o ≠ Panic NilDereference)); [done|].
    intros g s0 _. unfold syncGroup, bind.
    destruct (GetGitlabGroupMembers clt (Name g) s0)
      as [[[glabgroup grID]|p|e] s2] eqn:Eg; simpl.
    + by apply reconcile_no_panic.
    + intros [= ->]. revert Eg. unfold GetGitlabGroupMembers, bind, call.
      destruct (Groups_ListGroups clt (Name g) s0.1) as [[?|[|g0 rest]] ?];
        simpl; try done.
      by destruct (Groups_ListAllGroupMembers clt (Group_ID g0) w)
        as [[?|?] ?].
    + done.
  - intros [= ->]. revert E. unfold GetGitlabGroupMembers, bind, call.
    destruct (Groups_ListGroups clt "AFKL-MCP" s.1) as [[?|[|g0 rest]] ?];
      simpl; try done.
    by destruct (Groups_ListAllGroupMembers clt (Group_ID g0) w)
      as [[?|?] ?].
  - done.
Qed.

Lemma Run_no_nil_dereference_witness :
  (Run (fixedClient [{| Group_ID := 7 |}] [a1; a2; account 5 50 None])
     [{| OktaGroup_ID := "00g1"; Name := "team"; Users := ["u1"];
         Deprovisioned := ["u2"] |}] (tt, [])).1
  ≠ Panic NilDereference.
Proof.
  apply Run_no_nil_dereference.
  intros g0 rest w1 users w2 _ [= <- _] u Hu Hlevel.
  apply elem_of_cons in Hu as [->|Hu]; [by eexists|].
  apply elem_of_cons in Hu as [->|Hu]; [by eexists|].
  apply list_elem_of_singleton in Hu as ->. by vm_compute in Hlevel.
Defined.

(** ** Fetching members: errors *)

(** X16. [GetGitlabGroupMembers] ends the process when the gateway reports
    an error, for the search and for the listing alike; it never requests
    a mutation; and the members it returns are listed members, in listing
    order. *)
Theorem GetGitlabGroupMembers_errors {W} (clt : Client W) (name : string)
    (s : W * list Mutation) :
  (∀ e w', Groups_ListGroups clt name s.1 = (inl e, w') →
           GetGitlabGroupMembers clt name s = (Exit e, (w', s.2)))
  ∧ (∀ g0 rest w' e w'',
       Groups_ListGroups clt name s.1 = (inr (g0 :: rest), w') →
       Groups_ListAllGroupMembers clt (Group_ID g0) w' = (inl e, w'') →
       GetGitlabGroupMembers clt name s = (Exit e, (w'', s.2)))
  ∧ (GetGitlabGroupMembers clt name s).2.2 = s.2
  ∧ (∀ members id s',
       GetGitlabGroupMembers clt name s = (Ret (members, id), s') →
       ∃ users w', Groups_ListAllGroupMembers clt id w' = (inr users, s'.1)
                   ∧ members `sublist_of` users).
Proof.
  split; [|split; [|split]].
  - intros e w' E. unfold GetGitlabGroupMembers, bind, call. by rewrite E.
  - intros g0 rest w' e w'' E1 E2.
    unfold GetGitlabGroupMembers, bind, call. rewrite E1. simpl.
    by rewrite E2.
  - apply GetGitlabGroupMembers_log.
  - intros members id s' (g0 & rest & w' & users & _ & E2 & _ & _ & ->)
             %GetGitlabGroupMembers_Ret.
    exists users, w'. split; [done|]. apply sublist_filter.
Qed.

Lemma GetGitlabGroupMembers_errors_witness :
  GetGitlabGroupMembers failingClient "team" (tt, [])
    = (Exit "401 Unauthorized", (tt, []))
  ∧ ∃ users w',
      Groups_ListAllGroupMembers
        (fixedClient [{| Group_ID := 7 |}] [a1; account 5 50 None; a2]) 7 w'
      = (inr users, tt)
      ∧ [a1; a2] `sublist_of` users.
Proof.
  split.
  - exact (proj1 (GetGitlabGroupMembers_errors failingClient "team" (tt, []))
                 "401 Unauthorized" tt eq_refl).
  - exact (proj2 (proj2 (proj2 (GetGitlabGroupMembers_errors
             (fixedClient [{| Group_ID := 7 |}] [a1; account 5 50 None; a2])
             "team" (tt, []))))
           [a1; a2] 7 (tt, []) eq_refl).
Defined.

(** ** The cloud function *)

Lemma Intersection_nil_l (b : list string) : Intersection [] b = [].
Proof.
  rewrite Intersection_filter. apply elem_of_nil_inv.
  intros x [[]%elem_of_nil _]%list_elem_of_filter.
Qed.

Lemma bind_ret_tt {W} (m : M W unit) (s : W * list Mutation) :
  bind m (λ _, ret tt) s = m s.
Proof. unfold bind, ret. by destruct (m s) as [[[]|p|e] s1]. Qed.

Lemma PsyncGroup_eq {W} (clt : Client W) (afklMembers : list GroupMember)
    (g : OktaGroup) (s : W * list Mutation) :
  PsyncGroup clt afklMembers g s
  = syncGroup clt afklMembers (withoutDeprovisioned g) s.
Proof.
  unfold PsyncGroup, syncGroup, bind. simpl.
  destruct (GetGitlabGroupMembers clt (Name g) s)
    as [[[glabgroup grID]|p|e] s1]; try done.
  rewrite reconcile_eq. unfold usersToRemove.
  rewrite Intersection_nil_l. simpl. by rewrite bind_ret_tt.
Qed.

(** X17. The loop body of the cloud function [Psync] behaves as the loop
    body of the root command does for a group without deprovisioned
    members: same outcome, same requests, same calls to the gateway.  It
    never requests a removal. *)
Theorem PsyncGroup_as_syncGroup {W} (clt : Client W)
    (afklMembers : list GroupMember) (g : OktaGroup)
    (s : W * list Mutation) :
  PsyncGroup clt afklMembers g s
  = syncGroup clt afklMembers
      {| OktaGroup_ID := OktaGroup_ID g; Name := Name g; Users := Users g;
         Deprovisioned := [] |} s
  ∧ (removesOf s.2 = [] → removesOf (PsyncGroup clt afklMembers g s).2.2 = []).
Proof.
  assert (Heq := PsyncGroup_eq clt afklMembers g s).
  unfold withoutDeprovisioned in Heq.
  split; [done|]. intros Hs.
  apply elem_of_nil_inv. intros m (gid & Hm)%elem_of_removesOf.
  unfold PsyncGroup, bind at 1 in Hm.
  pose proof (GetGitlabGroupMembers_log clt (Name g) s) as Hlog.
  destruct (GetGitlabGroupMembers clt (Name g) s)
    as [[[glabgroup grID]|p|e] s1]; simpl in *.
  2,3: rewrite Hlog in Hm; assert (m ∈ removesOf s.2)
         by (apply elem_of_removesOf; eauto); rewrite Hs in *;
       by eapply elem_of_nil.
  assert (Hinv : Forall (λ c, ∀ g m, c ≠ Removed g m)
            (forM_ (Difference (Intersection (Users g) (afklUidsOf afklMembers))
                      (correlate glabgroup afklMembers).1)
               (λ x, forM_ afklMembers (addMember clt grID x)) s1).2.2).
  { apply forM__log_inv.
    - intros x s0 _ Hs0. revert s0 Hs0. apply forM__log_inv.
      intros y s0 _ Hs0.
      destruct (addMember_log clt grID x y s0) as [->| ->]; [done|].
      apply Forall_app. split; [done|]. apply Forall_forall.
      by intros c [-> _]%elem_of_addRequests.
    - rewrite Hlog. apply Forall_forall. intros c Hc g' m' ->.
      assert (m' ∈ removesOf s.2) by (apply elem_of_removesOf; eauto).
      rewrite Hs in *. by eapply elem_of_nil. }
  eapply Forall_forall in Hinv; [|exact Hm]. by eapply Hinv.
Qed.

Lemma PsyncGroup_as_syncGroup_witness :
  removesOf (PsyncGroup okClient [a1; a2]
               {| OktaGroup_ID := "00g1"; Name := "team"; Users := ["u1"];
                  Deprovisioned := ["u2"] |} (tt, [])).2.2 = [].
Proof.
  exact (proj2 (PsyncGroup_as_syncGroup okClient [a1; a2]
                  {| OktaGroup_ID := "00g1"; Name := "team"; Users := ["u1"];
                     Deprovisioned := ["u2"] |} (tt, [])) eq_refl).
Defined.

(** ** Splitting group names *)

Lemma stripPrefix_Some (sep s r : string) :
  stripPrefix sep s = Some r ↔ s = String.append sep r.
Proof.
  revert s. induction sep as [|a sep IH]; intros s; simpl.
  - split; [by intros [= ->]|by intros ->].
  - destruct s as [|c s]; [done|].
    destruct (Ascii.eqb_spec a c) as [->|Hne].
    + rewrite IH. split; [by intros ->|by intros [= ->]].
    + split; [done|]. intros [= -> _]. done.
Qed.

Lemma Cut_Some (sep s before after : string) :
  Cut sep s = Some (before, after) →
  s = String.append before (String.append sep after).
Proof.
  revert before. induction s as [|c s IH]; intros before; simpl.
  - destruct (stripPrefix sep EmptyString) eqn:E; [|done].
    intros [= <- <-]. by apply stripPrefix_Some in E.
  - destruct (stripPrefix sep (String c s)) eqn:E.
    + intros [= <- <-]. by apply stripPrefix_Some in E.
    + destruct (Cut sep s) as [[b a]|] eqn:Ec; [|done].
      intros [= <- <-].
      change (String c s = String c (String.append b (String.append sep a))).
      f_equal. by apply IH.
Qed.

Lemma append_nil_l (x : string) : String.append EmptyString x = x.
Proof. reflexivity. Qed.

Lemma append_cons (c : Ascii.ascii) (b x : string) :
  String.append (String c b) x = String c (String.append b x).
Proof. reflexivity. Qed.

Lemma Cut_None (sep s : string) :
  Cut sep s = None ↔
  ∀ before after, s ≠ String.append before (String.append sep after).
Proof.
  split.
  - induction s as [|c s IH]; simpl.
    + destruct (stripPrefix sep EmptyString) eqn:E; [done|].
      intros _ [|b before] after Hs; [|by rewrite append_cons in Hs].
      rewrite append_nil_l in Hs. apply stripPrefix_Some in Hs. congruence.
    + destruct (stripPrefix sep (String c s)) eqn:E; [done|].
      destruct (Cut sep s) as [[b a]|] eqn:Ec; [done|].
      intros _ [|b before] after Hs.
      * rewrite append_nil_l in Hs. apply stripPrefix_Some in Hs. congruence.
      * rewrite append_cons in Hs. injection Hs as _ Hs. by eapply IH.
  - intros Hno. destruct (Cut sep s) as [[b a]|] eqn:E; [|done].
    apply Cut_Some in E. by apply Hno in E.
Qed.

Lemma length_append (s t : string) :
  String.length (String.append s t) = (String.length s + String.length t)%nat.
Proof.
  induction s as [|c s IH]; [done|].
  rewrite append_cons. simpl. by rewrite IH.
Qed.

Lemma splitFuel_enough (sep : string) (n m : nat) (s : string) :
  sep ≠ EmptyString →
  (String.length s ≤ n)%nat → (String.length s ≤ m)%nat →
  splitFuel n sep s = splitFuel m sep s.
Proof.
  intros Hsep. revert m s. induction n as [|n IH]; intros m s Hn Hm.
  - destruct s; [|simpl in Hn; lia].
    destruct m; simpl; [done|].
    destruct sep; [done|]. done.
  - destruct m as [|m].
    + destruct s; [|simpl in Hm; lia]. simpl. destruct sep; done.
    + simpl. destruct (Cut sep s) as [[b a]|] eqn:E; [|done].
      f_equal. apply Cut_Some in E. subst s.
      rewrite !length_append in Hn, Hm.
      assert (0 < String.length sep)%nat by (destruct sep; [done|simpl; lia]).
      apply IH; lia.
Qed.

(** [Split] cuts at the leftmost separator and goes on with the rest. *)
Lemma Split_eq (s sep : string) :
  sep ≠ EmptyString →
  Split s sep = match Cut sep s with
                | Some (before, after) => before :: Split after sep
                | None => [s]
                end.
Proof.
  intros Hsep. unfold Split.
  destruct (Cut sep s) as [[b a]|] eqn:E.
  - pose proof (Cut_Some _ _ _ _ E) as Hs.
    assert (0 < String.length sep)%nat by (destruct sep; [done|simpl; lia]).
    assert (String.length a < String.length s)%nat
      by (subst s; rewrite !length_append; lia).
    destruct (String.length s) as [|n] eqn:El; [lia|].
    simpl. rewrite E. f_equal. apply splitFuel_enough; [done|lia|lia].
  - destruct (String.length s); simpl; [done|]. by rewrite E.
Qed.

Lemma Split_no_separator (s sep : string) :
  sep ≠ EmptyString → Cut sep s = None → Split s sep = [s].
Proof. intros Hsep E. by rewrite Split_eq, E. Qed.

Lemma Split_prefixed (t sep : string) :
  sep ≠ EmptyString → Cut sep t = None →
  Split (String.append sep t) sep = [EmptyString; t].
Proof.
  intros Hsep E. rewrite Split_eq by done.
  assert (Cut sep (String.append sep t) = Some (EmptyString, t)) as ->.
  { assert (Hp : stripPrefix sep (String.append sep t) = Some t)
      by by apply stripPrefix_Some.
    destruct (String.append sep t); simpl; by rewrite Hp. }
  by rewrite Split_no_separator.
Qed.

(** ** Fetching the directory groups *)

Lemma devGroupsLoop_Ret {W} (ctl : OktaClient W) sort listed acc
    (s s' : W * list Mutation) groups :
  devGroupsLoop ctl sort listed acc s = (Ret groups, s') →
  s'.2 = s.2
  ∧ ∃ new, groups = acc ++ new ∧ Forall2 (fetchedFrom ctl sort) listed new.
Proof.
  revert acc s. induction listed as [|g rest IH]; intros acc s; simpl.
  - intros [= <- <-]. split; [done|]. exists []. by rewrite app_nil_r.
  - unfold bind, call, ret, raise.
    destruct (Group_Profile g) as [p|] eqn:Ep; [|done].
    destruct (Split (GroupProfile_Name p) "dev_" !! 1%nat) as [name|] eqn:En;
      [|done].
    destruct (Group_ListGroupUsers ctl (Group_Id g) s.1) as [[e|users] w']
      eqn:Eu; simpl; [done|].
    intros (Hlog & new & -> & Hnew)%IH. split; [done|].
    eexists (_ :: new). split; [by rewrite <- app_assoc|].
    constructor; [|done]. by exists p, name, s.1, users, w'.
Qed.

Lemma devGroupsLoop_log {W} (ctl : OktaClient W) sort listed acc
    (s : W * list Mutation) :
  (devGroupsLoop ctl sort listed acc s).2.2 = s.2.
Proof.
  revert acc s. induction listed as [|g rest IH]; intros acc s; simpl; [done|].
  unfold bind, call, ret, raise.
  destruct (Group_Profile g) as [p|]; [|done].
  destruct (Split (GroupProfile_Name p) "dev_" !! 1%nat) as [name|]; [|done].
  destruct (Group_ListGroupUsers ctl (Group_Id g) s.1) as [[e|users] w'];
    simpl; [done|].
  by rewrite IH.
Qed.

Lemma GetOktaDevGroups_Ret {W} (ctl : OktaClient W)
    (s s' : W * list Mutation) groups :
  GetOktaDevGroups ctl s = (Ret groups, s') →
  s'.2 = s.2
  ∧ ∃ listed w1,
      Group_ListGroups ctl "dev_" s.1 = (inr listed, w1)
      ∧ Forall2 (fetchedFrom ctl splitByStatus) listed groups.
Proof.
  unfold GetOktaDevGroups, bind, call.
  destruct (Group_ListGroups ctl "dev_" s.1) as [[e|listed] w1] eqn:E;
    simpl; [done|].
  intros (Hlog & new & -> & Hnew)%devGroupsLoop_Ret.
  split; [done|]. by exists listed, w1.
Qed.

Lemma allUsers_lists (gr : OktaGroup) (users : list OktaUser) :
  OktaGroup_ID (allUsers gr users) = OktaGroup_ID gr
  ∧ Name (allUsers gr users) = Name gr
  ∧ Users (allUsers gr users) = Users gr ++ (Id <$> users)
  ∧ Deprovisioned (allUsers gr users) = Deprovisioned gr.
Proof.
  unfold allUsers. revert gr.
  induction users as [|u users IH]; intros gr; simpl.
  - by rewrite app_nil_r.
  - destruct (IH {| OktaGroup_ID := OktaGroup_ID gr; Name := Name gr;
                    Users := Users gr ++ [Id u];
                    Deprovisioned := Deprovisioned gr |})
      as (-> & -> & -> & ->). simpl. by rewrite <- app_assoc.
Qed.

Lemma getOktaDevGroups_Ret {W} (ctl : OktaClient W)
    (s s' : W * list Mutation) groups :
  getOktaDevGroups ctl s = (Ret groups, s') →
  ∃ listed w1,
    Group_ListGroups ctl "dev_" s.1 = (inr listed, w1)
    ∧ Forall2 (fetchedFrom ctl allUsers) listed groups.
Proof.
  unfold getOktaDevGroups, bind, call.
  destruct (Group_ListGroups ctl "dev_" s.1) as [[e|listed] w1] eqn:E;
    simpl; [done|].
  intros (Hlog & new & -> & Hnew)%devGroupsLoop_Ret.
  by exists listed, w1.
Qed.

(** X18. When [GetOktaDevGroups] returns, it has requested no mutation and
    its result follows the groups found for ["dev_"] one by one, in the
    order found: each result carries the identifier of its group, the name
    that is element 1 of the profile name split at ["dev_"], and a user
    listing of that group sorted by status into active and deprovisioned
    or suspended identifiers. *)
Theorem GetOktaDevGroups_result {W} (ctl : OktaClient W)
    (s s' : W * list Mutation) (groups : list OktaGroup) :
  GetOktaDevGroups ctl s = (Ret groups, s') →
  s'.2 = s.2
  ∧ ∃ listed w1,
      Group_ListGroups ctl "dev_" s.1 = (inr listed, w1)
      ∧ Forall2
          (λ g gr,
             OktaGroup_ID gr = Group_Id g
             ∧ (∃ p, Group_Profile g = Some p
                     ∧ Split (GroupProfile_Name p) "dev_" !! 1%nat
                       = Some (Name gr))
             ∧ ∃ w users w',
                 Group_ListGroupUsers ctl (Group_Id g) w = (inr users, w')
                 ∧ Users gr = Id <$> filter (λ u, ¬ inactive u) users
                 ∧ Deprovisioned gr = Id <$> filter inactive users)
          listed groups.
Proof.
  intros (Hlog & listed & w1 & E & Hall)%GetOktaDevGroups_Ret.
  split; [done|]. exists listed, w1. split; [done|].
  eapply Forall2_impl; [exact Hall|].
  intros g gr (p & name & w & users & w' & Ep & En & Eu & ->).
  destruct (splitByStatus_header
              {| OktaGroup_ID := Group_Id g; Name := name; Users := [];
                 Deprovisioned := [] |} users) as [-> ->].
  destruct (splitByStatus_lists
              {| OktaGroup_ID := Group_Id g; Name := name; Users := [];
                 Deprovisioned := [] |} users) as [-> ->].
  simpl. split; [done|]. split; [by exists p|]. by exists w, users, w'.
Qed.

Lemma GetOktaDevGroups_result_witness :
  ∃ listed w1,
    Group_ListGroups (fixedDirectory [devTeam] teamUsers) "dev_" tt
      = (inr listed, w1)
    ∧ Forall2
        (λ g gr,
           OktaGroup_ID gr = Group_Id g
           ∧ (∃ p, Group_Profile g = Some p
                   ∧ Split (GroupProfile_Name p) "dev_" !! 1%nat
                     = Some (Name gr))
           ∧ ∃ w users w',
               Group_ListGroupUsers (fixedDirectory [devTeam] teamUsers)
                 (Group_Id g) w = (inr users, w')
               ∧ Users gr = Id <$> filter (λ u, ¬ inactive u) users
               ∧ Deprovisioned gr = Id <$> filter inactive users)
        listed
        [{| OktaGroup_ID := "00g1"; Name := "team"; Users := ["u1"];
            Deprovisioned := ["u2"] |}].
Proof.
  exact (proj2 (GetOktaDevGroups_result (fixedDirectory [devTeam] teamUsers)
                  (tt, []) (tt, [])
                  [{| OktaGroup_ID := "00g1"; Name := "team"; Users := ["u1"];
                      Deprovisioned := ["u2"] |}] eq_refl)).
Defined.

(** X19. Group names.  When [GetOktaDevGroups] returns, every group found
    has a profile whose name contains ["dev_"], and a group named
    ["dev_"] followed by a text free of ["dev_"] is returned under that
    text.  When the first group found has a name without ["dev_"] the
    function panics with an index out of range, and when it has no
    profile with a nil dereference, in both cases before any user is
    listed. *)
Theorem GetOktaDevGroups_names {W} (ctl : OktaClient W)
    (s : W * list Mutation) (listed : list okta_Group) (w1 : W) :
  Group_ListGroups ctl "dev_" s.1 = (inr listed, w1) →
  (∀ groups s',
     GetOktaDevGroups ctl s = (Ret groups, s') →
     Forall2
       (λ g gr,
          ∃ p, Group_Profile g = Some p
               ∧ (∃ before after,
                    GroupProfile_Name p
                    = String.append before (String.append "dev_" after))
               ∧ ∀ t, GroupProfile_Name p = String.append "dev_" t →
                      (∀ before after,
                         t ≠ String.append before (String.append "dev_" after)) →
                      Name gr = t)
       listed groups)
  ∧ (∀ g rest p,
       listed = g :: rest → Group_Profile g = Some p →
       (∀ before after,
          GroupProfile_Name p
          ≠ String.append before (String.append "dev_" after)) →
       GetOktaDevGroups ctl s = (Panic IndexOutOfRange, (w1, s.2)))
  ∧ (∀ g rest,
       listed = g :: rest → Group_Profile g = None →
       GetOktaDevGroups ctl s = (Panic NilDereference, (w1, s.2))).
Proof.
  intros E. split; [|split].
  - intros groups s' (_ & listed' & w1' & E' & Hall)%GetOktaDevGroups_Ret.
    rewrite E in E'. injection E' as <- <-.
    eapply Forall2_impl; [exact Hall|].
    intros g gr (p & name & w & users & w' & Ep & En & Eu & ->).
    exists p. split; [done|]. split.
    + destruct (Cut "dev_" (GroupProfile_Name p)) as [[b a]|] eqn:Ec.
      * apply Cut_Some in Ec. eauto.
      * by rewrite Split_no_separator in En.
    + intros t Et Hfree. apply Cut_None in Hfree.
      rewrite Et, Split_prefixed in En by done. injection En as <-.
      by rewrite (proj2 (splitByStatus_header _ _)).
  - intros g rest p -> Ep Hfree. apply Cut_None in Hfree.
    unfold GetOktaDevGroups, bind, call. rewrite E. simpl.
    unfold bind, ret, raise. rewrite Ep.
    by rewrite Split_no_separator.
  - intros g rest -> Ep.
    unfold GetOktaDevGroups, bind, call. rewrite E. simpl.
    unfold bind, ret, raise. by rewrite Ep.
Qed.

Lemma GetOktaDevGroups_names_witness :
  GetOktaDevGroups
    (fixedDirectory
       [{| Group_Id := "00g2";
           Group_Profile := Some {| GroupProfile_Name := "DEV_team" |} |}]
       teamUsers) (tt, [])
  = (Panic IndexOutOfRange, (tt, [])).
Proof.
  refine (proj1 (proj2 (GetOktaDevGroups_names
            (fixedDirectory
               [{| Group_Id := "00g2";
                   Group_Profile := Some {| GroupProfile_Name := "DEV_team" |} |}]
               teamUsers) (tt, []) _ tt eq_refl))
          _ [] {| GroupProfile_Name := "DEV_team" |} eq_refl eq_refl _).
  apply Cut_None. reflexivity.
Defined.

(** X20. The directory fetch of the cloud function ignores the status of
    users: when [getOktaDevGroups] returns, each result lists every user
    of its group as eligible, in listing order, deprovisioned and
    suspended ones included, and requests no mutation. *)
Theorem getOktaDevGroups_ignores_status {W} (ctl : OktaClient W)
    (s s' : W * list Mutation) (groups : list OktaGroup) :
  getOktaDevGroups ctl s = (Ret groups, s') →
  s'.2 = s.2
  ∧ ∃ listed w1,
      Group_ListGroups ctl "dev_" s.1 = (inr listed, w1)
      ∧ Forall2
          (λ g gr,
             OktaGroup_ID gr = Group_Id g
             ∧ ∃ w users w',
                 Group_ListGroupUsers ctl (Group_Id g) w = (inr users, w')
                 ∧ Users gr = Id <$> users
                 ∧ Deprovisioned gr = [])
          listed groups.
Proof.
  unfold getOktaDevGroups, bind, call.
  destruct (Group_ListGroups ctl "dev_" s.1) as [[e|listed] w1] eqn:E;
    simpl; [done|].
  intros (Hlog & new & -> & Hnew)%devGroupsLoop_Ret.
  split; [done|]. exists listed, w1. split; [done|].
  eapply Forall2_impl; [exact Hnew|].
  intros g gr (p & name & w & users & w' & Ep & En & Eu & ->).
  destruct (allUsers_lists
              {| OktaGroup_ID := Group_Id g; Name := name; Users := [];
                 Deprovisioned := [] |} users) as (-> & _ & -> & ->).
  split; [done|]. by exists w, users, w'.
Qed.

Lemma getOktaDevGroups_ignores_status_witness :
  ∃ listed w1,
    Group_ListGroups (fixedDirectory [devTeam] teamUsers) "dev_" tt
      = (inr listed, w1)
    ∧ Forall2
        (λ g gr,
           OktaGroup_ID gr = Group_Id g
           ∧ ∃ w users w',
               Group_ListGroupUsers (fixedDirectory [devTeam] teamUsers)
                 (Group_Id g) w = (inr users, w')
               ∧ Users gr = Id <$> users
               ∧ Deprovisioned gr = [])
        listed
        [{| OktaGroup_ID := "00g1"; Name := "team"; Users := ["u1"; "u2"];
            Deprovisioned := [] |}].
Proof.
  exact (proj2 (getOktaDevGroups_ignores_status
                  (fixedDirectory [devTeam] teamUsers) (tt, []) (tt, [])
                  [{| OktaGroup_ID := "00g1"; Name := "team";
                      Users := ["u1"; "u2"]; Deprovisioned := [] |}]
                  eq_refl)).
Defined.

(** ** The root command, from directory to requests *)

Lemma GetOktaDevGroups_log {W} (ctl : OktaClient W) (s : W * list Mutation) :
  (GetOktaDevGroups ctl s).2.2 = s.2.
Proof.
  unfold GetOktaDevGroups, bind, call.
  destruct (Group_ListGroups ctl "dev_" s.1) as [[e|listed] w1]; simpl;
    [done|].
  by rewrite devGroupsLoop_log.
Qed.

(** The groups that the loop returns are made from the listings it
    received, one by one. *)
Lemma devGroupsLoop_listings {W} (ctl : OktaClient W) sort listed acc
    (s s' : W * list Mutation) groups :
  devGroupsLoop ctl sort listed acc s = (Ret groups, s') →
  ∃ new, groups = acc ++ new
         ∧ Forall2 (λ l gr, ∃ name,
                      gr = sort {| OktaGroup_ID := Group_Id l.1;
                                   Name := name; Users := [];
                                   Deprovisioned := [] |} l.2)
                   (listingsReceived ctl listed s.1) new.
Proof.
  revert acc s. induction listed as [|g rest IH]; intros acc s; simpl.
  - intros [= <- <-]. exists []. split; [by rewrite app_nil_r|constructor].
  - unfold bind, call, ret, raise.
    destruct (Group_Profile g) as [p|] eqn:Ep; [|done].
    destruct (Split (GroupProfile_Name p) "dev_" !! 1%nat) as [name|] eqn:En;
      [|done].
    destruct (Group_ListGroupUsers ctl (Group_Id g) s.1) as [[e|users] w']
      eqn:Eu; simpl; [done|].
    intros (new & -> & Hnew)%IH.
    eexists (_ :: new). split; [by rewrite <- app_assoc|].
    constructor; [|done]. by exists name.
Qed.

Lemma GetOktaDevGroups_listings {W} (ctl : OktaClient W)
    (s s' : W * list Mutation) groups :
  GetOktaDevGroups ctl s = (Ret groups, s') →
  Forall2 (λ l gr, Users gr = Id <$> filter (λ u, ¬ inactive u) l.2
                   ∧ Deprovisioned gr = Id <$> filter inactive l.2)
          (directoryListings ctl s.1) groups.
Proof.
  unfold GetOktaDevGroups, directoryListings, bind, call.
  destruct (Group_ListGroups ctl "dev_" s.1) as [[e|listed] w1] eqn:E;
    simpl; [done|].
  intros (new & -> & Hnew)%devGroupsLoop_listings. simpl in *.
  eapply Forall2_impl; [exact Hnew|].
  intros l gr [name ->]. by destruct (splitByStatus_lists
    {| OktaGroup_ID := Group_Id l.1; Name := name; Users := [];
       Deprovisioned := [] |} l.2) as [-> ->].
Qed.

Lemma getOktaDevGroups_listings {W} (ctl : OktaClient W)
    (s s' : W * list Mutation) groups :
  getOktaDevGroups ctl s = (Ret groups, s') →
  Forall2 (λ l gr, Users gr = Id <$> l.2)
          (directoryListings ctl s.1) groups.
Proof.
  unfold getOktaDevGroups, directoryListings, bind, call.
  destruct (Group_ListGroups ctl "dev_" s.1) as [[e|listed] w1] eqn:E;
    simpl; [done|].
  intros (new & -> & Hnew)%devGroupsLoop_listings. simpl in *.
  eapply Forall2_impl; [exact Hnew|].
  intros l gr [name ->].
  by rewrite (proj1 (proj2 (proj2 (allUsers_lists _ _)))).
Qed.

(** The listings of a run are those of its own world: the directory with
    state, started with the population [teamUsers], hands out that
    population and no other, although in another world it would list any
    user. *)
Lemma directoryListings_of_the_run :
  directoryListings mirrorDirectory teamUsers = [(devTeam, teamUsers)]
  ∧ ¬ directorySanctioned mirrorDirectory teamUsers
        (Added 7 (account 5 10 (Some "u5")) DeveloperPermissions)
  ∧ ¬ directorySanctioned mirrorDirectory teamUsers
        (Added 7 a2 DeveloperPermissions)
  ∧ ¬ directorySanctioned mirrorDirectory teamUsers
        (Removed 7 {| User := a1; SAMLID := "u1" |})
  ∧ directorySanctioned mirrorDirectory [{| Id := "u5"; Status := "ACTIVE" |}]
        (Added 7 (account 5 10 (Some "u5")) DeveloperPermissions).
Proof.
  split; [reflexivity|].
  assert (Hl : ∀ l u, l ∈ directoryListings mirrorDirectory teamUsers →
                      u ∈ l.2 →
                      u = {| Id := "u1"; Status := "ACTIVE" |}
                      ∨ u = {| Id := "u2"; Status := "SUSPENDED" |}).
  { intros l u Hl Hu. change (l ∈ [(devTeam, teamUsers)]) in Hl.
    apply list_elem_of_singleton in Hl as ->. simpl in Hu.
    unfold teamUsers in Hu.
    apply elem_of_cons in Hu as [->|Hu]; [by left|].
    apply list_elem_of_singleton in Hu as ->. by right. }
  split; [|split; [|split]].
  - intros (_ & _ & l & u & Hin & Hu & E & _).
    destruct (Hl l u Hin Hu) as [-> | ->]; discriminate E.
  - intros (_ & _ & l & u & Hin & Hu & E & Hact).
    destruct (Hl l u Hin Hu) as [-> | ->]; [discriminate E|].
    apply Hact. unfold inactive. simpl. by right.
  - intros (_ & l & u & Hin & Hu & E & Hact).
    destruct (Hl l u Hin Hu) as [-> | ->]; [|discriminate E].
    unfold inactive in Hact. simpl in Hact.
    by destruct Hact as [Hact|Hact].
  - split; [done|]. split; [done|].
    exists (devTeam, [{| Id := "u5"; Status := "ACTIVE" |}]),
      {| Id := "u5"; Status := "ACTIVE" |}.
    split; [apply list_elem_of_here|]. split; [apply list_elem_of_here|].
    split; [done|]. unfold inactive. simpl.
    by intros [Hact|Hact].
Qed.

(** X21. Whatever the two services reply and however the command ends,
    the root command grants access only to users that a directory listing
    received in this very run shows with a status other than
    deprovisioned or suspended, and removes only members that a listing
    received in this run shows as deprovisioned or suspended; it grants
    the developer level only, and touches no account it saw at the owner
    level.  The listings are the replies to the requests of
    [GetOktaDevGroups], made one after the other from the world in which
    the run starts. *)
Theorem rootCmd_requests_follow_directory {W} (ctl : OktaClient W)
    (clt : Client W) (w : W) :
  Forall (directorySanctioned ctl w) (rootCmd_Run ctl clt (w, [])).2.2.
Proof.
  unfold rootCmd_Run, bind.
  pose proof (GetOktaDevGroups_log ctl (w, [])) as Hlog.
  destruct (GetOktaDevGroups ctl (w, [])) as [[groups|p|e] [w1 log1]] eqn:E;
    simpl in *; subst log1; try by constructor.
  apply GetOktaDevGroups_listings in E. simpl in E.
  assert (Hgr : ∀ gr, gr ∈ groups →
            ∃ l, l ∈ directoryListings ctl w
                 ∧ Users gr = Id <$> filter (λ u, ¬ inactive u) l.2
                 ∧ Deprovisioned gr = Id <$> filter inactive l.2).
  { intros gr [i Hi]%list_elem_of_lookup.
    destruct (Forall2_lookup_r _ _ _ _ _ E Hi) as (l & Hl & HU & HD).
    exists l. split; [|done]. by eapply list_elem_of_lookup_2. }
  eapply Forall_impl; [apply Run_log_sanctioned|].
  intros [g y perm|g m]; simpl.
  - intros (-> & Hlevel & x & gr & Ex & Hin & Hx).
    split; [done|]. split; [done|].
    destruct (Hgr gr Hin) as (l & Hl & EU & _).
    rewrite EU in Hx.
    apply list_elem_of_fmap in Hx as (u & -> & [Hact Hu]%list_elem_of_filter).
    by exists l, u.
  - intros (Hlevel & gr & Hin & Hx). split; [done|].
    destruct (Hgr gr Hin) as (l & Hl & _ & ED).
    rewrite ED in Hx.
    apply list_elem_of_fmap in Hx as (u & -> & [Hact Hu]%list_elem_of_filter).
    by exists l, u.
Qed.

(** ** The cloud function, from directory to requests *)

Lemma forM__ext {W A} (l : list A) (f g : A → M W unit) :
  (∀ a s, f a s = g a s) → ∀ s, forM_ l f s = forM_ l g s.
Proof.
  intros Hfg. induction l as [|a l IH]; intros s; simpl; [done|].
  unfold bind. rewrite Hfg. by destruct (g a s) as [[[]|p|e] s1].
Qed.

Lemma forM__fmap {W A B} (h : A → B) (l : list A) (f : B → M W unit)
    (s : W * list Mutation) :
  forM_ (h <$> l) f s = forM_ l (λ a, f (h a)) s.
Proof.
  revert s. induction l as [|a l IH]; intros s; simpl; [done|].
  unfold bind. by destruct (f (h a) s) as [[[]|p|e] s1].
Qed.

(** The cloud function is the root run on the groups it fetched, taken
    without deprovisioned members. *)
Lemma Psync_as_Run {W} (ctl : OktaClient W) (clt : Client W)
    (s : W * list Mutation) :
  Psync ctl clt s
  = bind (getOktaDevGroups ctl)
         (λ groups, Run clt (withoutDeprovisioned <$> groups)) s.
Proof.
  unfold Psync, Run, bind.
  destruct (getOktaDevGroups ctl s) as [[groups|p|e] s1]; try done.
  destruct (GetGitlabGroupMembers clt "AFKL-MCP" s1)
    as [[[afklMembers id]|p|e] s2]; try done.
  rewrite forM__fmap. apply forM__ext. intros g s0. apply PsyncGroup_eq.
Qed.

(** X22. Whatever the two services reply and however it ends, the cloud
    function never requests a removal, and it grants only the developer
    level, only to accounts it saw below the owner level whose federated
    identifier is that of a user in a directory listing received in this
    very run: a reply to one of the requests of [getOktaDevGroups], made
    one after the other from the world in which the run starts. *)
Theorem Psync_requests {W} (ctl : OktaClient W) (clt : Client W) (w : W) :
  Forall (listingSanctioned ctl w) (Psync ctl clt (w, [])).2.2.
Proof.
  rewrite Psync_as_Run. unfold bind.
  assert (Hlog : (getOktaDevGroups ctl (w, [])).2.2 = []).
  { unfold getOktaDevGroups, bind, call. simpl.
    destruct (Group_ListGroups ctl "dev_" w) as [[e|listed] w1]; simpl;
      [done|].
    by rewrite devGroupsLoop_log. }
  destruct (getOktaDevGroups ctl (w, [])) as [[groups|p|e] [w1 log1]] eqn:E;
    simpl in *; subst log1; try by constructor.
  apply getOktaDevGroups_listings in E. simpl in E.
  eapply Forall_impl; [apply Run_log_sanctioned|].
  intros [g y perm|g m]; simpl.
  - intros (-> & Hlevel & x & gr & Ex & Hin & Hx).
    split; [done|]. split; [done|].
    apply list_elem_of_fmap in Hin as (gr0 & -> & [i Hi]%list_elem_of_lookup).
    destruct (Forall2_lookup_r _ _ _ _ _ E Hi) as (l & Hl & HU).
    simpl in Hx. rewrite HU in Hx.
    apply list_elem_of_fmap in Hx as (u & -> & Hu).
    exists l, u. split; [by eapply list_elem_of_lookup_2|done].
  - intros (_ & gr & Hin & Hx).
    apply list_elem_of_fmap in Hin as (gr0 & -> & _). simpl in Hx.
    by apply elem_of_nil in Hx.
Qed.

(** ** The older root command *)

Lemma fillUids_nil_identity {W} (members : list GroupMember) (i : nat)
    (uids : list string) (s : W * list Mutation) :
  Exists (λ m, GroupSAMLIdentity m = None) members →
  fillUids i members uids s = (Panic NilDereference, s).
Proof.
  intros Hex. revert i uids.
  induction Hex as [m rest Hm|m rest Hex IH]; intros i uids; simpl.
  - by rewrite Hm.
  - destruct (GroupSAMLIdentity m); [apply IH|done].
Qed.

Lemma fillUids_all {W} (members : list GroupMember) (pre : list string)
    (s : W * list Mutation) :
  Forall (λ m, is_Some (GroupSAMLIdentity m)) members →
  fillUids (length pre) members
    (pre ++ replicate (length members) EmptyString) s
  = (Ret (pre ++ (uidSlot <$> members)), s).
Proof.
  intros Hall. revert pre.
  induction Hall as [|m rest [id Hm] Hall IH]; intros pre; simpl.
  - by rewrite app_nil_r.
  - rewrite Hm. rewrite insert_app_r_alt by lia.
    rewrite Nat.sub_diag. simpl.
    specialize (IH (pre ++ [ExternUID id])).
    rewrite length_app, <- !app_assoc in IH. simpl in IH.
    rewrite Nat.add_1_r in IH. rewrite IH.
    unfold uidSlot, federatedId. by rewrite Hm.
Qed.

Lemma fillUids_afklUidsOf {W} (members : list GroupMember)
    (s : W * list Mutation) :
  Forall (λ m, is_Some (GroupSAMLIdentity m)) members →
  fillUids 0 members (replicate (length members) EmptyString) s
  = (Ret (afklUidsOf members), s).
Proof.
  intros Hall. rewrite afklUidsOf_slots.
  exact (fillUids_all members [] s Hall).
Qed.

(** X23. The older root command reads the identity of every entitlement
    account it keeps without a nil check: when one of them has no identity
    record the run panics right after the entitlement group is fetched,
    before any directory group is looked at and even when there is
    nothing to grant; when all have one, the run goes on exactly as the
    loop of the cloud function. *)
Theorem oldRun_nil_identity {W} (clt : Client W)
    (oktaGroups : list OktaGroup) (s s1 : W * list Mutation)
    (afklMembers : list GroupMember) (id : Z) :
  GetGitlabGroupMembers clt "AFKL-MCP" s = (Ret (afklMembers, id), s1) →
  ((∃ y, y ∈ afklMembers ∧ GroupSAMLIdentity y = None) →
     oldRun clt oktaGroups s = (Panic NilDereference, s1))
  ∧ (Forall (λ y, is_Some (GroupSAMLIdentity y)) afklMembers →
     oldRun clt oktaGroups s
     = forM_ oktaGroups (PsyncGroup clt afklMembers) s1).
Proof.
  intros E. unfold oldRun. unfold bind at 1. rewrite E. split.
  - intros (y & Hy & Hnil). unfold bind.
    rewrite fillUids_nil_identity; [done|].
    apply Exists_exists. eauto.
  - intros Hall. unfold bind. rewrite E.
    rewrite (fillUids_afklUidsOf afklMembers s1 Hall).
    apply forM__ext. intros g s0. reflexivity.
Qed.

Lemma oldRun_nil_identity_witness :
  oldRun (fixedClient [{| Group_ID := 7 |}] [a1; a0]) [] (tt, [])
    = (Panic NilDereference, (tt, []))
  ∧ oldRun (fixedClient [{| Group_ID := 7 |}] [a1; a2]) [] (tt, [])
    = (Ret tt, (tt, [])).
Proof.
  split.
  - apply (proj1 (oldRun_nil_identity
                    (fixedClient [{| Group_ID := 7 |}] [a1; a0]) []
                    (tt, []) (tt, []) [a1; a0] 7 eq_refl)).
    exists a0. split; [|done]. apply elem_of_cons. right.
    apply list_elem_of_here.
  - apply (proj2 (oldRun_nil_identity
                    (fixedClient [{| Group_ID := 7 |}] [a1; a2]) []
                    (tt, []) (tt, []) [a1; a2] 7 eq_refl)).
    repeat constructor; by eexists.
Defined.

(** ** Empty views *)

(** X24. Empty inputs.  With no active and no deprovisioned identifier a
    reconciliation returns at once, without any request and without
    looking at an identity record.  With an empty entitlement view it does
    the same whatever the directory lists: nothing is granted, and nothing
    is removed either, because no access-group member can be correlated. *)
Theorem reconcile_empty_views {W} (clt : Client W) (grID : Z)
    (users deprovisioned : list string)
    (afklMembers glabgroup : list GroupMember) (s : W * list Mutation) :
  reconcile clt grID [] [] afklMembers glabgroup s = (Ret tt, s)
  ∧ reconcile clt grID users deprovisioned [] glabgroup s = (Ret tt, s).
Proof.
  split.
  - rewrite reconcile_eq. unfold usersToAdd, usersToRemove.
    rewrite !Intersection_nil_l.
    replace (Difference [] (correlate glabgroup afklMembers).1)
      with (@nil string); [done|].
    symmetry. rewrite Difference_filter. done.
  - rewrite reconcile_eq.
    assert (usersToAdd users [] glabgroup = []) as ->.
    { apply elem_of_nil_inv. intros x [[_ Hx] _]%elem_of_usersToAdd.
      by apply elem_of_nil in Hx. }
    assert (usersToRemove deprovisioned [] glabgroup = []) as ->.
    { apply elem_of_nil_inv. intros x [_ Hx]%elem_of_usersToRemove.
      apply elem_of_correlate_uids in Hx as (_ & v & _ & Hv & _).
      by apply elem_of_nil in Hv. }
    done.
Qed.
